(** * QRIS D1 watcher: a shallow embedding and its verified properties

    The development follows the layout of the repository:

    - [scripts/watch_transactions.js]  (module [Watcher]): the long-running
      monitor with its poll loop, login sequence, header filter, detail
      extractor and D1 upsert;
    - [scripts/fetch_transactions_puppeteer.js] (module [OneShot]): the
      one-time fetch script with its date normalisation and header check;
    - [worker/src/{browser,database,index}.ts] (module [Worker]): the hosted
      variant with its list endpoint.

    Part I holds the definitions, Part II the lemmas and theorems. *)

From stdpp Require Import gmap strings list fin_maps fin_sets pretty.
From Stdlib Require Import ZArith Lia Ascii.

Open Scope string_scope.
Open Scope list_scope.
Open Scope Z_scope.

(* ===================================================================== *)
(** * Part I: definitions                                                 *)
(* ===================================================================== *)

(** ** JavaScript values

    Objects and arrays live in a heap and are referred to by location, so
    that sharing and cycles are expressible.  Numbers are modelled as the
    integral doubles, [NaN] and the two infinities ([Inf false] is
    [Infinity], [Inf true] is [-Infinity]); [-0] is not told apart from
    [0], and fractional values play no role in any property below. *)

Inductive JsNumber : Type :=
| NaN : JsNumber
| Num : Z -> JsNumber
| Inf : bool -> JsNumber.

Inductive Val : Type :=
| VUndefined : Val
| VNull : Val
| VBool : bool -> Val
| VNumber : JsNumber -> Val
| VString : string -> Val
| VRef : nat -> Val.

Inductive Obj : Type :=
| Object : list (string * Val) -> Obj
| Array : list Val -> Obj.

Abbreviation heap := (gmap nat Obj).

#[global] Instance JsNumber_eq_dec : EqDecision JsNumber.
Proof. solve_decision. Defined.

#[global] Instance Val_eq_dec : EqDecision Val.
Proof. solve_decision. Defined.

(** Built-ins of the JavaScript runtime on which the code relies but whose
    definition is not part of the repository. *)
Class JsBuiltins : Type := {
  Number : heap -> Val -> JsNumber;
  JSON_stringify : heap -> Val -> string;
  JSON_parse : string -> option (heap * Val);
  (* the message of the SyntaxError that [JSON.parse] and
     [response.json()] throw on a text that is not JSON *)
  JSON_error_message : string -> string
}.

(** [ToBoolean]: the falsy values are undefined, null, false, 0, NaN and
    the empty string. *)
Definition truthy (v : Val) : bool :=
  match v with
  | VUndefined | VNull => false
  | VBool b => b
  | VNumber NaN => false
  | VNumber (Num z) => negb (z =? 0)%Z
  | VNumber (Inf _) => true
  | VString s => negb (String.eqb s "")
  | VRef _ => true
  end.

(** [typeof v === 'object'] *)
Definition typeof_object (v : Val) : bool :=
  match v with
  | VNull | VRef _ => true
  | _ => false
  end.

(** Own properties of an object, in enumeration order. *)
Fixpoint assoc {A : Type} (k : string) (ps : list (string * A)) : option A :=
  match ps with
  | [] => None
  | (k', v) :: ps' => if String.eqb k k' then Some v else assoc k ps'
  end.

(** [obj[k] = v] on an object: overwrite in place, or append. *)
Fixpoint assoc_set {A : Type} (k : string) (v : A) (ps : list (string * A))
  : list (string * A) :=
  match ps with
  | [] => [(k, v)]
  | (k', v') :: ps' =>
      if String.eqb k k' then (k, v) :: ps' else (k', v') :: assoc_set k v ps'
  end.

(** Property read [v.k] for a named (non-index) key [k].  Every caller
    guards the receiver against null and undefined first. *)
Definition get (h : heap) (v : Val) (k : string) : Val :=
  match v with
  | VRef l =>
      match h !! l with
      | Some (Object ps) => default VUndefined (assoc k ps)
      | _ => VUndefined
      end
  | _ => VUndefined
  end.

(** [a ?? b] *)
Definition nullish (a b : Val) : Val :=
  match a with
  | VUndefined | VNull => b
  | _ => a
  end.

(** ** Strings *)

Definition is_digit (c : ascii) : bool :=
  let n := nat_of_ascii c in ((48 <=? n) && (n <=? 57))%nat.

Definition lower_ascii (c : ascii) : ascii :=
  let n := nat_of_ascii c in
  if ((65 <=? n) && (n <=? 90))%nat then ascii_of_nat (n + 32) else c.

(** [s.toLowerCase()]: the letters A to Z are mapped, every other
    character is kept.  No other character is turned into one of the
    letters of the keywords searched for below. *)
Fixpoint toLowerCase (s : string) : string :=
  match s with
  | EmptyString => EmptyString
  | String c s' => String (lower_ascii c) (toLowerCase s')
  end.

(** [s.startsWith(p)] *)
Fixpoint startsWith (s p : string) {struct p} : bool :=
  match p, s with
  | EmptyString, _ => true
  | String _ _, EmptyString => false
  | String a p', String b s' => Ascii.eqb a b && startsWith s' p'
  end.

(** [s.includes(p)] *)
Fixpoint includes (s p : string) : bool :=
  startsWith s p ||
  match s with
  | EmptyString => false
  | String _ s' => includes s' p
  end.

Fixpoint string_filter (f : ascii -> bool) (s : string) : string :=
  match s with
  | EmptyString => EmptyString
  | String c s' =>
      if f c then String c (string_filter f s') else string_filter f s'
  end.

Fixpoint string_forallb (f : ascii -> bool) (s : string) : bool :=
  match s with
  | EmptyString => true
  | String c s' => f c && string_forallb f s'
  end.

(** ** Thrown errors and results *)

Record JsError : Type := mkError {
  err_status : option Z;       (* the [status] property, when set *)
  err_message : string;
  err_body : option string
}.

Definition Error (msg : string) : JsError :=
  {| err_status := None; err_message := msg; err_body := None |}.

Inductive Result (A : Type) : Type :=
| Ok : A -> Result A
| Throw : JsError -> Result A.
Arguments Ok {A} _.
Arguments Throw {A} _.

#[global] Instance Result_bind : MBind Result := fun A B k r =>
  match r with
  | Ok a => k a
  | Throw e => Throw e
  end.

(** [await p.catch(() => null)]: a rejected wait is swallowed. *)
Definition tolerate (r : Result unit) : Result unit := Ok tt.

(** Header objects: name/value pairs in insertion order. *)
Abbreviation Headers := (list (string * string)).

(** [obj[k]] is truthy: present and non-empty. *)
Definition has_header (hs : Headers) (k : string) : bool :=
  match assoc k hs with
  | Some v => negb (String.eqb v "")
  | None => false
  end.

Definition TRANSACTION_API_URL : string :=
  "https://qris.bankmandiri.co.id/api/homeScreen/getDataTransaksi/auth/homeScreen".

(** What the page's [fetch] of the transaction endpoint produced. *)
Inductive Response : Type :=
| HttpResponse (status : Z) (text : string)
| FetchRejected (msg : string).

(** [response.ok] *)
Definition response_ok (status : Z) : bool :=
  ((200 <=? status) && (status <=? 299))%Z.

(** Observable effects, in the order they are issued. *)
Inductive Event : Type :=
| EvRequest (url : string) (start_date end_date : string) (hs : Headers)
| EvCaptureHeaders
| EvEnsureLogin (force : bool)
| EvOpenTransactionsPage
| EvUpsert (n : nat)
| EvLogFailure (e : JsError)
| EvLogReloginFailure (e : JsError).

(** ** Login sequence

    The outcome of every awaited browser operation of one login attempt:
    [Ok] when the promise resolves, [Throw] when it rejects (a timeout, or
    a control that could not be found or clicked). *)

Record LoginEnv : Type := mkLoginEnv {
  page_url : string;               (* page.url() on entry *)
  goto_login : Result unit;        (* page.goto(loginUrl) *)
  form_visible : Result unit;      (* waitForSelector('form') *)
  type_username : Result unit;     (* typeIntoField, username *)
  type_password : Result unit;     (* typeIntoField, password *)
  click_submit : Result unit;      (* clickLoginButton *)
  navigation : Result unit;        (* waitForNavigation after the click *)
  refresh_response : Result unit;  (* waitForResponse on the refresh call *)
  post_login_url : Result unit;    (* waitForFunction on the location *)
  ready_state : Result unit;       (* waitForFunction on document.readyState *)
  home_response : Result unit;     (* waitForResponse on /api/homeScreen *)
  body_visible : Result unit       (* waitForSelector('body') *)
}.

Record Config : Type := mkConfig {
  usernameSelector : string;
  passwordSelector : string;
  pollIntervalMs : Z
}.

(** ** scripts/fetch_transactions_puppeteer.js *)

Module OneShot.

(** A command-line value as [parseArgs] leaves it: absent, the flag
    [true], or the text that followed. *)
Inductive Arg : Type :=
| ArgAbsent
| ArgFlag
| ArgText (s : string).

(** [raw.replace(/-/g, '')] *)
Definition strip_dashes (raw : string) : string :=
  string_filter (fun c => negb (Ascii.eqb c "-"%char)) raw.

(** [/^\d{8}$/.test(s)] *)
Definition is_eight_digits (s : string) : bool :=
  (String.length s =? 8)%nat && string_forallb is_digit s.

(** [normalizeDateInput(raw, fallbackDate)]; [fallback] stands for
    [formatDate(fallbackDate)]. *)
Definition normalizeDateInput (raw : Arg) (fallback : string) : Result string :=
  match raw with
  | ArgAbsent => Ok fallback
  | ArgFlag =>
      Throw (Error "raw.replace is not a function")
  | ArgText s =>
      if String.eqb s "" then Ok fallback
      else
        let cleaned := strip_dashes s in
        if negb (is_eight_digits cleaned) then
          Throw (Error ("Invalid date format: " +:+ s +:+
                        " (expected YYYY-MM-DD or YYYYMMDD)"))
        else Ok cleaned
  end.

(** [whitelistedHeaders(headerMap, keys)] *)
Fixpoint whitelistedHeaders (headerMap : Headers) (keys : list string)
  : Headers :=
  match keys with
  | [] => []
  | key :: keys' =>
      match assoc key headerMap with
      | Some v =>
          if negb (String.eqb v "")
          then (key, v) :: whitelistedHeaders headerMap keys'
          else whitelistedHeaders headerMap keys'
      | None => whitelistedHeaders headerMap keys'
      end
  end.

Definition headerKeys : list string :=
  ["secret-id"; "secret-key"; "secret-token"; "session-item"; "accept"].

(** [fetchTransactionsFromPage]: the events issued and the outcome.  The
    payload is what [response.json()] gives for the body of a 2xx answer;
    on a body that is not JSON that promise rejects, and with it the call
    of [page.evaluate]. *)
Definition fetchTransactionsFromPage `{JsBuiltins}
    (headers : Headers) (startDate endDate : string) (resp : Response)
  : list Event * Result (heap * Val) :=
  let filteredHeaders := whitelistedHeaders headers headerKeys in
  if negb (has_header filteredHeaders "secret-id")
     || negb (has_header filteredHeaders "secret-key")
  then ([], Throw (Error
          "Captured headers did not include required secret fields."))
  else
    ([EvRequest TRANSACTION_API_URL startDate endDate filteredHeaders],
     match resp with
     | HttpResponse status text =>
         if negb (response_ok status) then
           Throw (Error ("Transaction API returned " +:+ pretty status +:+
                         ": " +:+ String.substring 0 200 text))
         else
           match JSON_parse text with
           | Some payload => Ok payload
           | None => Throw (Error (JSON_error_message text))
           end
     | FetchRejected msg => Throw (Error msg)
     end).

(** [login(page)].  The credentials are present ([requireEnvValue]);
    [openLoginFormIfNeeded] swallows the failure of each of its waits and
    is left out. *)
Definition login (cfg : Config) (env : LoginEnv) : Result unit :=
  _ ← goto_login env;
  _ ← (if String.eqb (usernameSelector cfg) ""
          && String.eqb (passwordSelector cfg) ""
       then form_visible env else Ok tt);
  _ ← type_username env;
  _ ← type_password env;
  let navigationPromise := tolerate (navigation env) in
  _ ← click_submit env;
  _ ← navigationPromise;
  _ ← tolerate (refresh_response env);
  _ ← tolerate (post_login_url env);
  _ ← ready_state env;
  _ ← tolerate (home_response env);
  _ ← body_visible env;
  Ok tt.

(** A value of the object [parseArgs] builds: [true], a text, or the
    array kept under [_]. *)
Inductive ArgVal : Type :=
| AVTrue
| AVText (s : string)
| AVArray (items : list string).

(** [args[key] = value] for a text or [true]: an own property is set,
    except under the name [__proto__], where such an assignment does
    nothing. *)
Definition set_arg (key : string) (value : ArgVal)
    (args : gmap string ArgVal) : gmap string ArgVal :=
  if String.eqb key "__proto__" then args else <[key := value]> args.

(** The text before the first "=", and what follows it when there is one. *)
Fixpoint cut_at_equals (s : string) : string * option string :=
  match s with
  | EmptyString => (EmptyString, None)
  | String c s' =>
      if Ascii.eqb c "="%char then (EmptyString, Some s')
      else let '(a, r) := cut_at_equals s' in (String c a, r)
  end.

(** [const [key, maybeValue] = token.split('=', 2)] *)
Definition split_equals_2 (token : string) : string * option string :=
  let '(key, rest) := cut_at_equals token in
  (key, (fun r => (cut_at_equals r).1) <$> rest).

(** [s.slice(n)] for [n >= 0] *)
Fixpoint slice (n : nat) (s : string) : string :=
  match n, s with
  | O, _ => s
  | S n', String _ s' => slice n' s'
  | S _, EmptyString => EmptyString
  end.

(** [next && !next.startsWith('-')] for the token after an option. *)
Definition is_value (next : string) : bool :=
  negb (String.eqb next "") && negb (startsWith next "-").

(** The loop of [parseArgs] from the token at index [i] on. *)
Fixpoint parse_from (args : gmap string ArgVal) (tokens : list string)
  : Result (gmap string ArgVal) :=
  match tokens with
  | [] => Ok args
  | token :: rest =>
      if negb (startsWith token "-") then
        (* args._ = args._ || []; args._.push(token) *)
        match args !! "_" with
        | None => parse_from (<["_" := AVArray [token]]> args) rest
        | Some (AVArray items) =>
            parse_from (<["_" := AVArray (items ++ [token])]> args) rest
        | Some (AVText s) =>
            if String.eqb s ""
            then parse_from (<["_" := AVArray [token]]> args) rest
            else Throw (Error "args._.push is not a function")
        | Some AVTrue => Throw (Error "args._.push is not a function")
        end
      else if startsWith token "--" then
        let '(key, maybeValue) := split_equals_2 token in
        let normalizedKey := slice 2 key in
        match maybeValue with
        | Some v => parse_from (set_arg normalizedKey (AVText v) args) rest
        | None =>
            match rest with
            | next :: rest' =>
                if is_value next
                then parse_from (set_arg normalizedKey (AVText next) args) rest'
                else parse_from (set_arg normalizedKey AVTrue args) rest
            | [] => parse_from (set_arg normalizedKey AVTrue args) rest
            end
        end
      else
        let normalizedKey := slice 1 token in
        match rest with
        | next :: rest' =>
            if is_value next
            then parse_from (set_arg normalizedKey (AVText next) args) rest'
            else parse_from (set_arg normalizedKey AVTrue args) rest
        | [] => parse_from (set_arg normalizedKey AVTrue args) rest
        end
  end.

(** [parseArgs(argv)] *)
Definition parseArgs (argv : list string) : Result (gmap string ArgVal) :=
  parse_from ∅ (drop 2 argv).

(** The fields of a [Date] the script reads. *)
Record Date : Type := mkDate {
  getFullYear : Z;
  getMonth : Z;      (* 0 .. 11 *)
  getDate : Z        (* 1 .. 31 *)
}.

Fixpoint zeros (n : nat) : string :=
  match n with
  | O => EmptyString
  | S n' => String "0"%char (zeros n')
  end.

(** [s.padStart(target, '0')] *)
Definition padStart0 (target : nat) (s : string) : string :=
  zeros (target - String.length s) +:+ s.

(** [formatDate(inputDate)] *)
Definition formatDate (inputDate : Date) : string :=
  let yyyy := pretty (getFullYear inputDate) in
  let mm := padStart0 2 (pretty (getMonth inputDate + 1)) in
  let dd := padStart0 2 (pretty (getDate inputDate)) in
  yyyy +:+ mm +:+ dd.

End OneShot.

(** ** The D1 store

    The [transactions] table as both [ensureSchema] functions declare it:
    [reff_number] is the primary key, [is_transfer_to_rek] is NOT NULL, and
    [created_at] and [updated_at] default to CURRENT_TIMESTAMP. *)

(** The reading of CURRENT_TIMESTAMP seen by the n-th executed statement. *)
Class SqlClock : Type := { CURRENT_TIMESTAMP : nat -> Z }.

Module D1.

Record Row : Type := mkRow {
  number : Val;
  is_transfer_to_rek : Val;
  transfer_amount : Val;
  transfer_amount_number : Val;
  fee_amount : Val;
  fee_amount_number : Val;
  auth_amount : Val;
  auth_amount_number : Val;
  percentage_fee_amount : Val;
  percentage_fee_amount_number : Val;
  issuer_name : Val;
  customer_name : Val;
  mpan : Val;
  tid : Val;
  cpan : Val;
  auth_date_time : Val;
  time_data_change : Val;
  settle_date : Val;
  raw_json : Val;
  created_at : Z;
  updated_at : Z
}.

Record Db : Type := mkDb {
  rows : gmap string Row;      (* keyed by reff_number *)
  executed : nat               (* statements executed so far *)
}.

Definition empty : Db := {| rows := ∅; executed := 0%nat |}.

Definition tick (db : Db) : Db :=
  {| rows := rows db; executed := S (executed db) |}.

(** The statement shared by [persistDetails] and [upsertTransactions]:
    INSERT of the twenty bound values with [updated_at] set to
    CURRENT_TIMESTAMP, and ON CONFLICT(reff_number) DO UPDATE SET of
    every listed column from [excluded].  [created_at] is neither
    inserted explicitly nor listed in the update. *)
Definition upsert_statement `{SqlClock} (params : list Val) (db : Db)
  : Db * Result unit :=
  match params with
  | [p_reff; p_number; p_transfer; p_tamount; p_tamount_n; p_fee; p_fee_n;
     p_auth; p_auth_n; p_pct; p_pct_n; p_issuer; p_customer; p_mpan; p_tid;
     p_cpan; p_auth_dt; p_changed; p_settle; p_raw] =>
      let now := CURRENT_TIMESTAMP (executed db) in
      match p_reff with
      | VString key =>
          if decide (p_transfer = VNull) then
            (tick db,
             Throw (Error
               "NOT NULL constraint failed: transactions.is_transfer_to_rek"))
          else
            let excluded :=
              mkRow p_number p_transfer p_tamount p_tamount_n p_fee p_fee_n
                    p_auth p_auth_n p_pct p_pct_n p_issuer p_customer
                    p_mpan p_tid p_cpan p_auth_dt p_changed p_settle p_raw
                    now now in
            let stored :=
              match rows db !! key with
              | None => excluded
              | Some old =>
                  {| number := number excluded;
                     is_transfer_to_rek := is_transfer_to_rek excluded;
                     transfer_amount := transfer_amount excluded;
                     transfer_amount_number := transfer_amount_number excluded;
                     fee_amount := fee_amount excluded;
                     fee_amount_number := fee_amount_number excluded;
                     auth_amount := auth_amount excluded;
                     auth_amount_number := auth_amount_number excluded;
                     percentage_fee_amount := percentage_fee_amount excluded;
                     percentage_fee_amount_number :=
                       percentage_fee_amount_number excluded;
                     issuer_name := issuer_name excluded;
                     customer_name := customer_name excluded;
                     mpan := mpan excluded;
                     tid := tid excluded;
                     cpan := cpan excluded;
                     auth_date_time := auth_date_time excluded;
                     time_data_change := time_data_change excluded;
                     settle_date := settle_date excluded;
                     raw_json := raw_json excluded;
                     created_at := created_at old;
                     updated_at := now |}
              end in
            ({| rows := <[key := stored]> (rows db);
                executed := S (executed db) |}, Ok tt)
      | _ =>
          (* the key column is declared as text in types.ts; the binding
             of any other kind of value is not modelled *)
          (tick db, Throw (Error "D1_TYPE_ERROR"))
      end
  | _ => (tick db, Throw (Error "Wrong number of parameter bindings"))
  end.

(** SELECT COUNT( * ) FROM transactions *)
Definition count_rows (db : Db) : nat := size (rows db).

End D1.

(** [mapDetailToColumns] of watch_transactions.js and [mapDetailToParams]
    of database.ts are the same function. *)
Section MapDetail.
Context `{JsBuiltins}.

Definition toNumber (h : heap) (value : Val) : Val :=
  match value with
  | VNull | VUndefined => VNull
  | VString s => if String.eqb s "" then VNull else VNumber (Number h value)
  | _ => VNumber (Number h value)
  end.

Definition booleanToInt (value : Val) : Val :=
  if truthy value then VNumber (Num 1) else VNumber (Num 0).

Definition mapDetailToColumns (h : heap) (detail : Val) : list Val :=
  [ get h detail "reffNumber";
    nullish (get h detail "number") VNull;
    booleanToInt (get h detail "isTransferToRek");
    nullish (get h detail "transferAmount") VNull;
    toNumber h (get h detail "transferAmountNumber");
    nullish (get h detail "feeAmount") VNull;
    toNumber h (get h detail "feeAmountNumber");
    nullish (get h detail "authAmount") VNull;
    toNumber h (get h detail "authAmountNumber");
    nullish (get h detail "percentageFeeAmount") VNull;
    toNumber h (get h detail "percentageFeeAmountNumber");
    nullish (get h detail "issuerName") VNull;
    nullish (get h detail "customerName") VNull;
    nullish (get h detail "mpan") VNull;
    nullish (get h detail "tid") VNull;
    nullish (get h detail "cpan") VNull;
    nullish (get h detail "authDateTime") VNull;
    nullish (get h detail "timeDataChange") VNull;
    nullish (get h detail "settleDate") VNull;
    VString (JSON_stringify h detail) ].

(** The loop of [persistDetails] / [upsertTransactions]: records without
    a truthy [reffNumber] are skipped, every other one is upserted and
    counted; a failing statement ends the loop with its error. *)
Fixpoint upsert_loop `{SqlClock}
    (h : heap) (details : list Val) (stored : nat) (db : D1.Db)
  : D1.Db * Result nat :=
  match details with
  | [] => (db, Ok stored)
  | detail :: rest =>
      if negb (truthy detail) || negb (truthy (get h detail "reffNumber"))
      then upsert_loop h rest stored db
      else
        let params := mapDetailToColumns h detail in
        match D1.upsert_statement params db with
        | (db', Ok _) => upsert_loop h rest (S stored) db'
        | (db', Throw e) => (db', Throw e)
        end
  end.

End MapDetail.

(** ** The recursive walk shared by [collectDetailRecords] and
    [extractTransactionDetails] *)

Record WalkState : Type := mkWalk {
  visited : gset nat;          (* the WeakSet of seen nodes *)
  details : list Val           (* the output array *)
}.

(** [Object.values(node)], or the items of an array. *)
Definition children (h : heap) (l : nat) : list Val :=
  match h !! l with
  | Some (Array items) => items
  | Some (Object ps) => ps.*2
  | None => []
  end.

(** [walk(node)], with the recursion depth bounded by [fuel]; [is_detail]
    is the test guarding [details.push(node.detail)]. *)
Fixpoint walk (is_detail : Val -> bool) (h : heap) (fuel : nat)
    (node : Val) (st : WalkState) : option WalkState :=
  match fuel with
  | O => None
  | S fuel' =>
      if negb (truthy node) || negb (typeof_object node) then Some st
      else
        match node with
        | VRef l =>
            if decide (l ∈ visited st) then Some st
            else
              let d := get h node "detail" in
              let st1 :=
                {| visited := {[l]} ∪ visited st;
                   details := if is_detail d then details st ++ [d]
                              else details st |} in
              fold_left
                (fun acc item =>
                   match acc with
                   | Some s => walk is_detail h fuel' item s
                   | None => None
                   end)
                (children h l) (Some st1)
        | _ => Some st
        end
  end.

Definition walk_all (is_detail : Val -> bool) (h : heap) (payload : Val)
  : option (list Val) :=
  details <$> walk is_detail h (S (size h)) payload
                   {| visited := ∅; details := [] |}.

(** ** Network traffic seen while a capture listens

    The requests and responses of the page, in the order they occur,
    from the moment the listener is registered until the wait is over. *)
Inductive NetEvent : Type :=
| NetRequest (url : string) (hs : Headers)
| NetResponse (url : string) (method : string).

Definition targetFragment : string := "/api/homeScreen/getDataTransaksi".

(** The loop shared by both captures: [captured] is the value the request
    listener last stored; the wait ends with the first GET response whose
    URL contains the fragment.  [None]: no such response arrived in time. *)
Fixpoint listen (captured : option Headers) (trace : list NetEvent)
  : option (option Headers) :=
  match trace with
  | [] => None
  | NetRequest url hs :: rest =>
      listen (if includes url targetFragment then Some hs else captured) rest
  | NetResponse url method :: rest =>
      if includes url targetFragment && String.eqb method "GET"
      then Some captured
      else listen captured rest
  end.

(** ** The page around a label

    An element with its tag name, an identity and its child elements. *)
#[local] Set Warnings "-register-all".
Inductive Elem : Type :=
| Element (tagName : string) (uid : nat) (childElements : list Elem).

Definition is_input (e : Elem) : bool :=
  match e with
  | Element tag _ _ => String.eqb tag "INPUT"
  end.

(** [element.querySelector('input')]: the first input among the
    descendants, in document order. *)
Fixpoint querySelector_input (e : Elem) : option Elem :=
  match e with
  | Element _ _ kids =>
      (fix first_in (ks : list Elem) : option Elem :=
         match ks with
         | [] => None
         | k :: ks' =>
             if is_input k then Some k
             else
               match querySelector_input k with
               | Some found => Some found
               | None => first_in ks'
               end
         end) kids
  end.

(** [withinParent] / [findInput] *)
Definition withinParent (element : Elem) : option Elem :=
  if is_input element then Some element else querySelector_input element.

(** The [while (neighbor)] loops over siblings, nearest first. *)
Fixpoint first_within (neighbors : list Elem) : option Elem :=
  match neighbors with
  | [] => None
  | neighbor :: rest =>
      match withinParent neighbor with
      | Some candidate => Some candidate
      | None => first_within rest
      end
  end.

(** A label found by its text, with what surrounds it. *)
Record LabelSite : Type := mkLabelSite {
  label : Elem;
  control : option Elem;          (* label.control *)
  previousSiblings : list Elem;   (* nearest first *)
  nextSiblings : list Elem;       (* nearest first *)
  parentTag : option (string * nat)  (* parentElement: tag name, identity *)
}.

(** [label.parentElement], with its children in document order. *)
Definition parentElement (site : LabelSite) : option Elem :=
  (fun '(tag, id) =>
     Element tag id
       (rev (previousSiblings site) ++ label site :: nextSiblings site))
  <$> parentTag site.

(** ** scripts/watch_transactions.js *)

Module Watcher.

Definition allowed : list string :=
  ["secret-id"; "secret-key"; "secret-token"; "session-item"; "accept";
   "accept-language"; "referer"].

(** [filterHeaders(headers)] *)
Fixpoint filterHeaders_from (filtered : Headers) (entries : Headers)
  : Headers :=
  match entries with
  | [] => filtered
  | (key, value) :: rest =>
      let lower := toLowerCase key in
      if bool_decide (lower ∈ allowed)
      then filterHeaders_from (assoc_set lower value filtered) rest
      else filterHeaders_from filtered rest
  end.

Definition filterHeaders (headers : Headers) : Headers :=
  filterHeaders_from [] headers.

(** The object the in-page function of [fetchTransactions] returns. *)
Record PageResult : Type := mkPageResult {
  ok : bool;
  status : Z;
  data : option (heap * Val);    (* None: [null] or not set *)
  text : option string;
  error : option string
}.

Definition page_fetch `{JsBuiltins} (resp : Response) : PageResult :=
  match resp with
  | HttpResponse st body =>
      {| ok := response_ok st; status := st; data := JSON_parse body;
         text := Some (String.substring 0 5000 body); error := None |}
  | FetchRejected msg =>
      {| ok := false; status := 0; data := None; text := None;
         error := Some msg |}
  end.

(** [fetchTransactions(page, headers, startDate, endDate)] *)
Definition fetchTransactions `{JsBuiltins}
    (headers : Headers) (startDate endDate : string) (resp : Response)
  : list Event * Result (heap * Val) :=
  let filteredHeaders := filterHeaders headers in
  let result := page_fetch resp in
  ([EvRequest TRANSACTION_API_URL startDate endDate filteredHeaders],
   if negb (ok result) then
     Throw {| err_status := Some (status result);
              err_message := "Transaction fetch failed: HTTP " +:+
                             pretty (status result) +:+ " " +:+
                             default "" (error result);
              err_body := text result |}
   else
     match data result with
     | Some (h, payload) =>
         if truthy payload then Ok (h, payload)
         else Throw (Error "Transaction response is not valid JSON")
     | None => Throw (Error "Transaction response is not valid JSON")
     end).

(** The test in front of [details.push(node.detail)]. *)
Definition is_detail (d : Val) : bool :=
  truthy d && typeof_object d && negb (bool_decide (d = VNull)).

(** [collectDetailRecords(payload)]; [None] stands for a walk that ran
    out of fuel. *)
Definition collectDetailRecords (h : heap) (payload : Val)
  : option (list Val) :=
  walk_all is_detail h payload.

(** [persistDetails(details)] *)
Definition persistDetails `{JsBuiltins} `{SqlClock}
    (h : heap) (details : list Val) (db : D1.Db) : D1.Db * Result nat :=
  upsert_loop h details 0%nat db.

(** [waitForPostLoginSignals(page)] *)
Definition waitForPostLoginSignals (env : LoginEnv) : Result unit :=
  _ ← tolerate (refresh_response env);
  _ ← tolerate (post_login_url env);
  _ ← ready_state env;
  Ok tt.

(** [ensureLogin(page, { force })].  [openLoginFormIfNeeded] swallows the
    failure of each of its waits and is left out. *)
Definition ensureLogin (cfg : Config) (force : bool) (env : LoginEnv)
  : Result unit :=
  if negb force && includes (page_url env) "/homeScreen" then Ok tt
  else
    _ ← goto_login env;
    _ ← (if String.eqb (usernameSelector cfg) ""
            && String.eqb (passwordSelector cfg) ""
         then form_visible env else Ok tt);
    _ ← type_username env;
    _ ← type_password env;
    let navigationPromise := tolerate (navigation env) in
    _ ← click_submit env;
    _ ← navigationPromise;
    _ ← waitForPostLoginSignals env;
    Ok tt.

(** [shouldRelogin(error)]; a thrown value here is always an error
    object, so the guard [!error] never fires. *)
Definition shouldRelogin (error : JsError) : bool :=
  if bool_decide (err_status error = Some 401)
     || bool_decide (err_status error = Some 403)
  then true
  else
    let message := toLowerCase (err_message error) in
    includes message "unauthorized"
    || includes message "forbidden"
    || includes message "login".

(** The outcome of everything one poll cycle awaits from outside. *)
Record CycleEnv : Type := mkCycleEnv {
  today : string;                      (* todayRange() *)
  recapture : Result Headers;          (* capture inside the refresh *)
  response : Response;                 (* answer to the replayed call *)
  relogin : LoginEnv;                  (* the forced login *)
  transactions_page : Result unit;     (* ensureTransactionsPage *)
  capture_after_login : Result Headers (* capture after the re-login *)
}.

(** The variables [main] closes over, together with the remote table. *)
Record Watch : Type := mkWatch {
  polling : bool;
  lastRun : Z;
  latestHeaders : Headers;
  db : D1.Db
}.

(** [refreshHeadersIfNeeded(page, headers)] *)
Definition refreshHeadersIfNeeded (env : CycleEnv) (headers : Headers)
  : list Event * Result Headers :=
  if has_header headers "secret-token" then ([], Ok headers)
  else ([EvCaptureHeaders], recapture env).

(** [fetchAndStore(page, headers)] *)
Definition fetchAndStore `{JsBuiltins} `{SqlClock}
    (env : CycleEnv) (headers : Headers) (d : D1.Db)
  : D1.Db * list Event * Result unit :=
  let '(evs, fetched) :=
    fetchTransactions headers (today env) (today env) (response env) in
  match fetched with
  | Throw e => (d, evs, Throw e)
  | Ok (h, payload) =>
      let details := default [] (collectDetailRecords h payload) in
      if (List.length details =? 0)%nat then (d, evs, Ok tt)
      else
        match persistDetails h details d with
        | (d', Ok stored) => (d', evs ++ [EvUpsert stored], Ok tt)
        | (d', Throw e) => (d', evs, Throw e)
        end
  end.

(** The guard at the head of [poll]: [None] when the call returns at
    once, otherwise the state with the flag raised and the time noted. *)
Definition poll_enter (cfg : Config) (now : Z) (w : Watch) : option Watch :=
  if polling w then None
  else if now - lastRun w <? pollIntervalMs cfg - 1000 then None
  else Some {| polling := true; lastRun := now;
               latestHeaders := latestHeaders w; db := db w |}.

(** The [catch] block of [poll]. *)
Definition poll_catch (cfg : Config) (env : CycleEnv) (error : JsError)
    (headers : Headers) : Headers * list Event :=
  if shouldRelogin error then
    match ensureLogin cfg true (relogin env) with
    | Throw innerErr =>
        (headers,
         [EvLogFailure error; EvEnsureLogin true;
          EvLogReloginFailure innerErr])
    | Ok _ =>
        match transactions_page env with
        | Throw innerErr =>
            (headers,
             [EvLogFailure error; EvEnsureLogin true;
              EvOpenTransactionsPage; EvLogReloginFailure innerErr])
        | Ok _ =>
            match capture_after_login env with
            | Throw innerErr =>
                (headers,
                 [EvLogFailure error; EvEnsureLogin true;
                  EvOpenTransactionsPage; EvCaptureHeaders;
                  EvLogReloginFailure innerErr])
            | Ok fresh =>
                (fresh,
                 [EvLogFailure error; EvEnsureLogin true;
                  EvOpenTransactionsPage; EvCaptureHeaders])
            end
        end
    end
  else (headers, [EvLogFailure error]).

(** The [try] / [catch] / [finally] of [poll], entered with the flag
    raised. *)
Definition poll_cycle `{JsBuiltins} `{SqlClock}
    (cfg : Config) (env : CycleEnv) (w : Watch) : Watch * list Event :=
  let '(evs1, refreshed) := refreshHeadersIfNeeded env (latestHeaders w) in
  match refreshed with
  | Throw error =>
      let '(hs, evs) := poll_catch cfg env error (latestHeaders w) in
      ({| polling := false; lastRun := lastRun w; latestHeaders := hs;
          db := db w |}, evs1 ++ evs)
  | Ok headers =>
      match fetchAndStore env headers (db w) with
      | (d, evs2, Ok _) =>
          ({| polling := false; lastRun := lastRun w;
              latestHeaders := headers; db := d |}, evs1 ++ evs2)
      | (d, evs2, Throw error) =>
          let '(hs, evs) := poll_catch cfg env error headers in
          ({| polling := false; lastRun := lastRun w; latestHeaders := hs;
              db := d |}, evs1 ++ evs2 ++ evs)
      end
  end.

(** [poll()] run to completion at time [now]. *)
Definition poll `{JsBuiltins} `{SqlClock}
    (cfg : Config) (now : Z) (env : CycleEnv) (w : Watch)
  : Watch * list Event :=
  match poll_enter cfg now w with
  | None => (w, [])
  | Some w1 => poll_cycle cfg env w1
  end.

(** The timer and the cycles it starts.  [poll] runs up to its first
    [await] without interruption, so a timer tick is the guard alone;
    the rest of a started cycle completes in a later step.  [in_flight]
    counts the cycles that have passed the guard and not yet finished. *)
Record Sched : Type := mkSched {
  watch : Watch;
  in_flight : nat
}.

Inductive sched_step `{JsBuiltins} `{SqlClock} (cfg : Config)
  : Sched -> Sched -> Prop :=
| step_tick (now : Z) (s : Sched) :
    sched_step cfg s
      (match poll_enter cfg now (watch s) with
       | None => s
       | Some w1 => {| watch := w1; in_flight := S (in_flight s) |}
       end)
| step_finish (env : CycleEnv) (s : Sched) :
    (0 < in_flight s)%nat ->
    sched_step cfg s
      {| watch := (poll_cycle cfg env (watch s)).1;
         in_flight := Nat.pred (in_flight s) |}.

Inductive reachable `{JsBuiltins} `{SqlClock} (cfg : Config) (s0 : Sched)
  : Sched -> Prop :=
| reach_init : reachable cfg s0 s0
| reach_step s s' :
    reachable cfg s0 s -> sched_step cfg s s' -> reachable cfg s0 s'.

(** The state in which [main] first calls [poll]. *)
Definition initial (hs : Headers) (d : D1.Db) : Sched :=
  {| watch := {| polling := false; lastRun := 0; latestHeaders := hs;
                 db := d |};
     in_flight := 0%nat |}.

(** [todayRange()], for the current local date [now]. *)
Definition todayRange (now : OneShot.Date) : string * string :=
  let formatted := OneShot.formatDate now in
  (formatted, formatted).

(** [captureTransactionHeaders(page)] over the traffic [trace]. *)
Definition captureTransactionHeaders (trace : list NetEvent)
  : Result Headers :=
  match listen None trace with
  | None =>
      Throw (Error
        "Timed out capturing transaction headers. Reload /riwayatTransaksi manually to refresh.")
  | Some None =>
      Throw (Error "Failed to capture transaction request headers")
  | Some (Some capturedHeaders) => Ok capturedHeaders
  end.

(** The function evaluated in the page by [waitForInputByLabel], for the
    label found: [label.control], then previous siblings, then next
    siblings, then the parent. *)
Definition resolve_input (site : LabelSite) : option Elem :=
  match control site with
  | Some c => Some c
  | None =>
      match first_within (previousSiblings site) with
      | Some candidate => Some candidate
      | None =>
          match first_within (nextSiblings site) with
          | Some candidate => Some candidate
          | None =>
              match parentElement site with
              | Some parent => withinParent parent
              | None => None
              end
          end
      end
  end.

(** [waitForInputByLabel(page, labelText)] once the label is there. *)
Definition waitForInputByLabel (labelText : string) (site : LabelSite)
  : Result Elem :=
  match resolve_input site with
  | Some element => Ok element
  | None =>
      Throw (Error ("Label " +:+ String (ascii_of_nat 34) EmptyString +:+
                    labelText +:+ String (ascii_of_nat 34) EmptyString +:+
                    " did not resolve to an input element."))
  end.

End Watcher.

(** ** worker/src/index.ts: the list endpoint *)

Module Worker.

(** browser.ts: the test in front of [details.push(obj.detail)]. *)
Definition is_detail (d : Val) : bool := truthy d && typeof_object d.

(** browser.ts: [extractTransactionDetails(payload)] *)
Definition extractTransactionDetails (h : heap) (payload : Val)
  : option (list Val) :=
  walk_all is_detail h payload.

(** browser.ts: [waitForPostLogin(page)] *)
Definition waitForPostLogin (env : LoginEnv) : Result unit :=
  _ ← tolerate (refresh_response env);
  _ ← tolerate (post_login_url env);
  Ok tt.

(** database.ts: [upsertTransactions(db, transactions)] *)
Definition upsertTransactions `{JsBuiltins} `{SqlClock}
    (h : heap) (transactions : list Val) (db : D1.Db)
  : D1.Db * Result nat :=
  upsert_loop h transactions 0%nat db.

(** [StrWhiteSpaceChar].  A character of a string stands for one UTF-16
    code unit below 256; among these the white space and line terminators
    are TAB, LF, VT, FF, CR, SP and NBSP (U+00A0). *)
Definition is_space (c : ascii) : bool :=
  let n := nat_of_ascii c in
  ((n =? 32) || ((9 <=? n) && (n <=? 13)) || (n =? 160))%nat.

Fixpoint trim_start (s : string) : string :=
  match s with
  | String c s' => if is_space c then trim_start s' else s
  | EmptyString => EmptyString
  end.

(** The value of [c] as a digit in [radix], if it is one. *)
Definition digit_value (radix : Z) (c : ascii) : option Z :=
  let n := Z.of_nat (nat_of_ascii c) in
  let d :=
    if (48 <=? n) && (n <=? 57) then Some (n - 48)
    else if (97 <=? n) && (n <=? 122) then Some (n - 87)
    else if (65 <=? n) && (n <=? 90) then Some (n - 55)
    else None in
  match d with
  | Some v => if v <? radix then Some v else None
  | None => None
  end.

(** Longest prefix of digits, accumulated left to right. *)
Fixpoint parse_digits (radix : Z) (acc : option Z) (s : string) : option Z :=
  match s with
  | EmptyString => acc
  | String c s' =>
      match digit_value radix c with
      | Some d => parse_digits radix (Some (default 0 acc * radix + d)) s'
      | None => acc
      end
  end.

(** The Number value for the integer [z]: the nearest double, ties going
    to the even significand, and an infinity from 2^1024 - 2^970 on.
    Integers below 2^53 in magnitude are doubles themselves. *)
Definition to_double (z : Z) : JsNumber :=
  let a := Z.abs z in
  if a <? 2 ^ 53 then Num z
  else
    let shift := Z.log2 a - 52 in
    let q := Z.shiftr a shift in
    let r := a - Z.shiftl q shift in
    let half := Z.shiftl 1 (shift - 1) in
    let q' := if (half <? r) || ((r =? half) && Z.odd q) then q + 1 else q in
    let m := Z.shiftl q' shift in
    if 2 ^ 1024 <=? m then Inf (z <? 0) else Num (Z.sgn z * m).

(** [parseInt(s)] with no radix argument. *)
Definition parseInt (s : string) : JsNumber :=
  let s1 := trim_start s in
  let '(sign, s2) :=
    match s1 with
    | String "-"%char r => (-1, r)
    | String "+"%char r => (1, r)
    | _ => (1, s1)
    end in
  let '(radix, s3) :=
    match s2 with
    | String "0"%char (String "x"%char r) => (16, r)
    | String "0"%char (String "X"%char r) => (16, r)
    | _ => (10, s2)
    end in
  match parse_digits radix None s3 with
  | Some v => to_double (sign * v)
  | None => NaN
  end.

(** [Math.min(a, b)] *)
Definition Math_min (a b : JsNumber) : JsNumber :=
  match a, b with
  | NaN, _ | _, NaN => NaN
  | Inf true, _ | _, Inf true => Inf true
  | Inf false, y => y
  | x, Inf false => x
  | Num x, Num y => Num (Z.min x y)
  end.

(** [url.searchParams.get(name) || dflt] *)
Definition param_or (p : option string) (dflt : string) : string :=
  match p with
  | Some s => if String.eqb s "" then dflt else s
  | None => dflt
  end.

(** [Math.min(parseInt(url.searchParams.get("limit") || "10"), 100)] *)
Definition effective_limit (limitParam : option string) : JsNumber :=
  Math_min (parseInt (param_or limitParam "10")) (Num 100).

Definition effective_offset (offsetParam : option string) : JsNumber :=
  parseInt (param_or offsetParam "0").

(** [... LIMIT ? OFFSET ?] over the rows that satisfy the WHERE clause, in
    ORDER BY order.  SQLite puts no upper bound on the result when the
    limit is negative and reads a negative offset as zero; a bound value
    that is not a finite number is rejected. *)
Definition sql_limit_offset {A : Type}
    (rows : list A) (limit offset : JsNumber) : Result (list A) :=
  match limit, offset with
  | Num l, Num o =>
      let skipped := drop (Z.to_nat o) rows in
      Ok (if l <? 0 then skipped else take (Z.to_nat l) skipped)
  | _, _ => Throw (Error "D1_TYPE_ERROR")
  end.

Record ListResponse (A : Type) : Type := mkListResponse {
  http_status : Z;
  transactions : list A;
  count : nat;
  total : nat;
  limit : JsNumber;
  offset : JsNumber
}.
Arguments mkListResponse {A}.
Arguments http_status {A}.
Arguments transactions {A}.
Arguments count {A}.
Arguments limit {A}.

(** [handleListTransactions]; [matching] are the stored rows selected by
    the date and customer-name filters, newest first.  A store error is
    caught and answered with status 500 and no rows. *)
Definition handleListTransactions {A : Type}
    (limitParam offsetParam : option string) (matching : list A)
  : ListResponse A :=
  let limit := effective_limit limitParam in
  let offset := effective_offset offsetParam in
  match sql_limit_offset matching limit offset with
  | Ok results =>
      mkListResponse 200 results (length results) (length matching)
                     limit offset
  | Throw _ => mkListResponse 500 [] 0%nat 0%nat limit offset
  end.

(** browser.ts: [filterHeaders(headers)] *)
Fixpoint filterHeaders_from (filtered : Headers) (entries : Headers)
  : Headers :=
  match entries with
  | [] => filtered
  | (key, value) :: rest =>
      if bool_decide (toLowerCase key ∈ Watcher.allowed)
         && negb (String.eqb value "")
      then filterHeaders_from (assoc_set (toLowerCase key) value filtered) rest
      else filterHeaders_from filtered rest
  end.

Definition filterHeaders (headers : Headers) : Headers :=
  filterHeaders_from [] headers.

(** browser.ts: [captureApiHeaders(page)].  The wait is not wrapped: when
    it times out, the error of the wait itself, [waitError], is thrown. *)
Definition captureApiHeaders (waitError : JsError) (trace : list NetEvent)
  : Result Headers :=
  match listen (Some []) trace with
  | None => Throw waitError
  | Some captured =>
      let capturedHeaders := default [] captured in
      if negb (has_header capturedHeaders "secret-token")
      then Throw (Error "Failed to capture API headers")
      else Ok capturedHeaders
  end.

(** browser.ts: the function evaluated in the page by
    [typeIntoFieldByLabel]: [label.control], then next siblings, then
    previous siblings, then the parent. *)
Definition resolve_input (site : LabelSite) : option Elem :=
  match control site with
  | Some c => Some c
  | None =>
      match first_within (nextSiblings site) with
      | Some input => Some input
      | None =>
          match first_within (previousSiblings site) with
          | Some input => Some input
          | None =>
              match parentElement site with
              | Some parent => withinParent parent
              | None => None
              end
          end
      end
  end.

(** browser.ts: [getTodayRange()] *)
Definition getTodayRange (now : OneShot.Date) : string * string :=
  let formatted := OneShot.formatDate now in
  (formatted, formatted).

(** index.ts: the handler a request is dispatched to. *)
Inductive Route : Type :=
| RPreflight
| RHealth
| RStats
| RTrigger
| RCheckPayment
| RVerifyPayment
| RListTransactions
| RGetTransaction (reffNumber : string)
| REndpoints.

(** [s.replace(pattern, replacement)] with a text pattern: the first
    occurrence is replaced. *)
Fixpoint replace_first (pattern replacement s : string) : string :=
  if startsWith s pattern
  then replacement +:+ OneShot.slice (String.length pattern) s
  else
    match s with
    | EmptyString => EmptyString
    | String c s' => String c (replace_first pattern replacement s')
    end.

(** index.ts: the chain of tests in [fetch]. *)
Definition route (method pathname : string) : Route :=
  if String.eqb method "OPTIONS" then RPreflight
  else if String.eqb pathname "/health" then RHealth
  else if String.eqb pathname "/stats" then RStats
  else if String.eqb pathname "/trigger" && String.eqb method "POST"
  then RTrigger
  else if String.eqb pathname "/api/check-payment" then RCheckPayment
  else if String.eqb pathname "/api/verify-payment" then RVerifyPayment
  else if String.eqb pathname "/api/transactions" then RListTransactions
  else if startsWith pathname "/api/transaction/"
  then RGetTransaction (replace_first "/api/transaction/" "" pathname)
  else REndpoints.

(** database.ts: [getTransactionCount(db)] *)
Definition getTransactionCount (db : D1.Db) : nat := D1.count_rows db.

(** What [handleGetTransaction] answers. *)
Inductive GetResponse : Type :=
| GetBadRequest            (* 400, "reff_number is required" *)
| GetNotFound              (* 404, "Transaction not found" *)
| GetFound (row : D1.Row). (* 200, { transaction: row } *)

(** index.ts: [handleGetTransaction(reffNumber, env, headers)] with the
    point lookup SELECT ... WHERE reff_number = ? answered by the table. *)
Definition handleGetTransaction (reffNumber : string) (db : D1.Db)
  : GetResponse :=
  if String.eqb reffNumber "" then GetBadRequest
  else
    match D1.rows db !! reffNumber with
    | None => GetNotFound
    | Some result => GetFound result
    end.

End Worker.

(** ** Vocabulary of the properties *)

(** *** The extractor *)

(** The detail a node contributes when it is first visited, if any. *)
Definition detail_of (is_detail : Val -> bool) (h : heap) (l : nat)
  : option Val :=
  let d := get h (VRef l) "detail" in
  if is_detail d then Some d else None.

(** The number of heap nodes the walk has not seen yet. *)
Definition unvisited (h : heap) (st : WalkState) : nat :=
  size (dom h ∖ visited st).

(** What a call of [walk] does to the state: it visits the nodes of
    [order], each for the first time, and appends their details. *)
Definition extends (is_detail : Val -> bool) (h : heap)
    (st st' : WalkState) (order : list nat) : Prop :=
  visited st' = visited st ∪ list_to_set order
  ∧ details st' = details st ++ omap (detail_of is_detail h) order
  ∧ NoDup order
  ∧ ∀ l, l ∈ order → l ∉ visited st.

(** No two distinct nodes hold the same detail object. *)
Definition details_unshared (is_detail : Val -> bool) (h : heap) : Prop :=
  ∀ l1 l2 d,
    detail_of is_detail h l1 = Some d → detail_of is_detail h l2 = Some d →
    l1 = l2.

(** *** The store *)

(** The mutable columns of a row, in the order of the INSERT column list. *)
Definition row_columns (r : D1.Row) : list Val :=
  [ D1.number r; D1.is_transfer_to_rek r; D1.transfer_amount r;
    D1.transfer_amount_number r; D1.fee_amount r; D1.fee_amount_number r;
    D1.auth_amount r; D1.auth_amount_number r; D1.percentage_fee_amount r;
    D1.percentage_fee_amount_number r; D1.issuer_name r; D1.customer_name r;
    D1.mpan r; D1.tid r; D1.cpan r; D1.auth_date_time r;
    D1.time_data_change r; D1.settle_date r; D1.raw_json r ].

(** A valid detail record carries a non-empty textual reference number. *)
Definition has_reff (h : heap) (detail : Val) (key : string) : Prop :=
  get h detail "reffNumber" = VString key ∧ key ≠ "".

Definition valid_detail (h : heap) (detail : Val) : Prop :=
  ∃ key, has_reff h detail key.

Definition reff (h : heap) (detail : Val) : string :=
  match get h detail "reffNumber" with
  | VString s => s
  | _ => ""
  end.

Definition transfer_flag_ok (r : D1.Row) : Prop :=
  D1.is_transfer_to_rek r = VNumber (Num 0)
  ∨ D1.is_transfer_to_rek r = VNumber (Num 1).

(** Every row was last written by one of the statements executed so
    far, and carries the clock reading of that statement. *)
Definition stamped `{SqlClock} (db : D1.Db) : Prop :=
  ∀ k r, D1.rows db !! k = Some r →
    ∃ j, (j < D1.executed db)%nat ∧ D1.updated_at r = CURRENT_TIMESTAMP j.

(** The clock does not run backwards from one statement to the next. *)
Definition clock_monotone `{SqlClock} : Prop :=
  ∀ a b, (a ≤ b)%nat → CURRENT_TIMESTAMP a ≤ CURRENT_TIMESTAMP b.

(** Every statement reads a later second than the one before it. *)
Definition clock_advancing `{SqlClock} : Prop :=
  ∀ a b, (a < b)%nat → CURRENT_TIMESTAMP a < CURRENT_TIMESTAMP b.

(** *** The list endpoint *)


(** *** The scheduler *)

(** The message contains the keyword when letter case is ignored. *)
Definition contains_ignoring_case (msg kw : string) : Prop :=
  ∃ pre mid post,
    msg = pre +:+ mid +:+ post ∧ toLowerCase mid = toLowerCase kw.

(** The classification the scheduler is meant to apply to a failure. *)
Definition authentication_failure (e : JsError) : Prop :=
  err_status e = Some 401 ∨ err_status e = Some 403
  ∨ contains_ignoring_case (err_message e) "unauthorized"
  ∨ contains_ignoring_case (err_message e) "forbidden"
  ∨ contains_ignoring_case (err_message e) "login".

Definition is_login (ev : Event) : bool :=
  match ev with
  | EvEnsureLogin _ => true
  | _ => false
  end.

(** The number of login sequences a trace starts. *)
Definition login_attempts (evs : list Event) : nat :=
  List.length (List.filter is_login evs).

(** The flag and the number of cycles in flight move together. *)
Definition flag_tracks_flight (s : Watcher.Sched) : Prop :=
  Watcher.in_flight s
  = if Watcher.polling (Watcher.watch s) then 1%nat else 0%nat.

(** *** The login sequence *)

(** The steps of the sequence that come before the settle phase. *)
Definition form_submitted (cfg : Config) (env : LoginEnv) : Prop :=
  goto_login env = Ok tt
  ∧ (usernameSelector cfg = "" ∧ passwordSelector cfg = "" →
     form_visible env = Ok tt)
  ∧ type_username env = Ok tt
  ∧ type_password env = Ok tt
  ∧ click_submit env = Ok tt.

(** ** Concrete inputs *)

Definition demo_builtins : JsBuiltins :=
  {| Number := fun _ v => match v with VNumber n => n | _ => NaN end;
     JSON_stringify := fun _ _ => "{}";
     JSON_parse := fun _ => None;
     JSON_error_message := fun _ => "Unexpected token < in JSON at position 0" |}.

Definition demo_clock : SqlClock :=
  {| CURRENT_TIMESTAMP := fun n => 1000 + Z.of_nat n |}.

(** CURRENT_TIMESTAMP counts whole seconds: statements executed within
    one second all read the same value. *)
Definition same_second : SqlClock :=
  {| CURRENT_TIMESTAMP := fun _ => 1000 |}.

Definition default_config : Config :=
  {| usernameSelector := ""; passwordSelector := "";
     pollIntervalMs := 300000 |}.

(** A parsed response: no node is shared.
      1 = { result: <2> }   2 = { data: <3> }   3 = [ <4> ]
      4 = { detail: <5> }   5 = { reffNumber: "TX1" } *)
Definition tree_heap : heap :=
  {[ 1%nat := Object [("result", VRef 2)];
     2%nat := Object [("data", VRef 3)];
     3%nat := Array [VRef 4];
     4%nat := Object [("detail", VRef 5)];
     5%nat := Object [("reffNumber", VString "TX1")] ]}.

(** A cyclic graph: node 3 refers back to its ancestor 2 under the key
    "detail".
      1 = { detail: <2> }    2 = { next: <3> }    3 = { detail: <2> } *)
Definition cyclic_heap : heap :=
  {[ 1%nat := Object [("detail", VRef 2)];
     2%nat := Object [("next", VRef 3)];
     3%nat := Object [("detail", VRef 2)] ]}.

(** A cyclic graph without a shared detail: node 3 refers back to the
    root.
      1 = { detail: <2>, next: <3> }    2 = { reffNumber: "TX1" }
      3 = { parent: <1> } *)
Definition loop_heap : heap :=
  {[ 1%nat := Object [("detail", VRef 2); ("next", VRef 3)];
     2%nat := Object [("reffNumber", VString "TX1")];
     3%nat := Object [("parent", VRef 1)] ]}.

(** Four detail records; the second and the third share "TX2". *)
Definition demo_heap : heap :=
  {[ 1%nat := Object [("reffNumber", VString "TX1");
                      ("authAmountNumber", VNumber (Num 50000))];
     2%nat := Object [("reffNumber", VString "TX2");
                      ("isTransferToRek", VNull)];
     3%nat := Object [("reffNumber", VString "TX2");
                      ("isTransferToRek", VBool true);
                      ("customerName", VString "JOHN DOE")];
     4%nat := Object [("reffNumber", VString "TX3")] ]}.

(** The table after record 2 alone has been stored, and the row it holds. *)
Definition demo_db : D1.Db :=
  (Worker.upsertTransactions (H := demo_builtins) (H0 := demo_clock)
     demo_heap [VRef 2] D1.empty).1.

Definition demo_old : D1.Row :=
  D1.mkRow VNull (VNumber (Num 0)) VNull VNull VNull VNull VNull VNull VNull
           VNull VNull VNull VNull VNull VNull VNull VNull VNull
           (VString "{}") 1000 1000.

Definition timeout : JsError := Error "Waiting failed: 15000ms exceeded".

(** A login in which every step succeeds and every signal is seen. *)
Definition login_all_ok : LoginEnv :=
  {| page_url := "https://qris.bankmandiri.co.id/";
     goto_login := Ok tt; form_visible := Ok tt; type_username := Ok tt;
     type_password := Ok tt; click_submit := Ok tt; navigation := Ok tt;
     refresh_response := Ok tt; post_login_url := Ok tt; ready_state := Ok tt;
     home_response := Ok tt; body_visible := Ok tt |}.

(** The same login, except that the document never reports ready. *)
Definition login_never_ready : LoginEnv :=
  {| page_url := "https://qris.bankmandiri.co.id/";
     goto_login := Ok tt; form_visible := Ok tt; type_username := Ok tt;
     type_password := Ok tt; click_submit := Ok tt; navigation := Ok tt;
     refresh_response := Ok tt; post_login_url := Ok tt;
     ready_state := Throw timeout;
     home_response := Ok tt; body_visible := Ok tt |}.

(** The same login with none of the tolerated signals observed. *)
Definition login_no_signals : LoginEnv :=
  {| page_url := "https://qris.bankmandiri.co.id/";
     goto_login := Ok tt; form_visible := Ok tt; type_username := Ok tt;
     type_password := Ok tt; click_submit := Ok tt;
     navigation := Throw timeout;
     refresh_response := Throw timeout; post_login_url := Throw timeout;
     ready_state := Ok tt;
     home_response := Throw timeout; body_visible := Ok tt |}.

(** A complete captured header set, and one with the rotating token but
    no [secret-key]. *)
Definition demo_headers : Headers :=
  [("secret-id", "id-1"); ("secret-key", "key-1"); ("secret-token", "tok-1")].

Definition headers_without_key : Headers :=
  [("secret-id", "id-1"); ("secret-token", "tok-1"); ("accept", "*/*")].

(** A cycle whose replayed call is answered with HTTP 401. *)
Definition cycle_unauthorized : Watcher.CycleEnv :=
  {| Watcher.today := "20251126";
     Watcher.recapture := Ok demo_headers;
     Watcher.response := HttpResponse 401 "Unauthorized";
     Watcher.relogin := login_all_ok;
     Watcher.transactions_page := Ok tt;
     Watcher.capture_after_login := Ok demo_headers |}.

Definition idle_watch : Watcher.Watch :=
  {| Watcher.polling := false; Watcher.lastRun := 0;
     Watcher.latestHeaders := demo_headers; Watcher.db := D1.empty |}.

Definition busy_watch : Watcher.Watch :=
  {| Watcher.polling := true; Watcher.lastRun := 0;
     Watcher.latestHeaders := demo_headers; Watcher.db := D1.empty |}.

(** ** Vocabulary of the further properties *)

(** *** Dates and arguments *)

(** A four-digit rendering of a year, and a two-digit rendering of a month
    or day after padding. *)
Definition year_ok (y : Z) : bool :=
  (String.length (pretty y) =? 4)%nat && string_forallb is_digit (pretty y).

Definition two_ok (n : Z) : bool :=
  (String.length (OneShot.padStart0 2 (pretty n)) =? 2)%nat
  && string_forallb is_digit (OneShot.padStart0 2 (pretty n)).

(** The text holds no "=". *)
Definition no_equals (s : string) : bool :=
  string_forallb (fun c => negb (Ascii.eqb c "="%char)) s.

(** *** Headers and captures *)

(** The header names read in lower case, as the filter reads them. *)
Definition lowered (headers : Headers) : Headers :=
  (fun '(key, value) => (toLowerCase key, value)) <$> headers.

Definition is_api_request (ev : NetEvent) : bool :=
  match ev with
  | NetRequest url _ => includes url targetFragment
  | NetResponse _ _ => false
  end.

Definition is_api_response (ev : NetEvent) : bool :=
  match ev with
  | NetRequest _ _ => false
  | NetResponse url method =>
      includes url targetFragment && String.eqb method "GET"
  end.

(** The message of a failed replay without an error text names none of
    the keywords. *)
Definition status_line_is_neutral (status : Z) : bool :=
  let message :=
    toLowerCase ("Transaction fetch failed: HTTP " +:+ pretty status +:+ " ") in
  negb (includes message "unauthorized" || includes message "forbidden"
        || includes message "login").

(** *** The store and the extractor *)

(** The guard at the head of the upsert loop lets the record through. *)
Definition passes_guard (h : heap) (detail : Val) : bool :=
  truthy detail && truthy (get h detail "reffNumber").

(** The nodes the payload leads to: itself, when it is an object, and
    every object among the values of a node already reached. *)
Inductive reachable_from (h : heap) (payload : Val) : nat -> Prop :=
| reachable_root l : payload = VRef l -> reachable_from h payload l
| reachable_child l l' :
    reachable_from h payload l -> VRef l' ∈ children h l ->
    reachable_from h payload l'.

(** What a finished walk over [roots] has added to the seen set: only
    nodes the roots lead to, and with each of them all its children. *)
Definition visits (h : heap) (roots : list Val) (st st' : WalkState) : Prop :=
  visited st ⊆ visited st'
  ∧ (∀ l, VRef l ∈ roots → l ∈ visited st')
  ∧ (∀ x, x ∈ visited st' → x ∉ visited st →
       (∃ root, root ∈ roots ∧ reachable_from h root x)
       ∧ ∀ y, VRef y ∈ children h x → y ∈ visited st').

(** *** Further concrete inputs *)

(** A runtime whose JSON parser returns the tree of [tree_heap]. *)
Definition tree_builtins : JsBuiltins :=
  {| Number := fun _ v => match v with VNumber n => n | _ => NaN end;
     JSON_stringify := fun _ _ => "{}";
     JSON_parse := fun _ => Some (tree_heap, VRef 1);
     JSON_error_message := fun _ => "Unexpected token < in JSON at position 0" |}.

(** A cycle whose replayed call is answered with the tree. *)
Definition cycle_ok : Watcher.CycleEnv :=
  {| Watcher.today := "20251126";
     Watcher.recapture := Ok demo_headers;
     Watcher.response := HttpResponse 200 "{}";
     Watcher.relogin := login_all_ok;
     Watcher.transactions_page := Ok tt;
     Watcher.capture_after_login := Ok demo_headers |}.

(** A cycle that starts without the rotating token and sees no traffic. *)
Definition cycle_silent : Watcher.CycleEnv :=
  {| Watcher.today := "20251126";
     Watcher.recapture := Watcher.captureTransactionHeaders [];
     Watcher.response := HttpResponse 200 "{}";
     Watcher.relogin := login_all_ok;
     Watcher.transactions_page := Ok tt;
     Watcher.capture_after_login := Ok demo_headers |}.

Definition tokenless_watch : Watcher.Watch :=
  {| Watcher.polling := true; Watcher.lastRun := 0;
     Watcher.latestHeaders := [("secret-id", "id-1")];
     Watcher.db := D1.empty |}.

(** Traffic with two calls to the transaction API before its answer. *)
Definition demo_trace : list NetEvent :=
  [ NetRequest (TRANSACTION_API_URL +:+ "?startDate=20251126")
      [("secret-id", "old")];
    NetResponse "https://qris.bankmandiri.co.id/static/app.js" "GET";
    NetRequest (TRANSACTION_API_URL +:+ "?startDate=20251126") demo_headers;
    NetRequest "https://qris.bankmandiri.co.id/static/logo.png" [];
    NetResponse (TRANSACTION_API_URL +:+ "?startDate=20251126") "GET";
    NetRequest (TRANSACTION_API_URL +:+ "?startDate=20251126")
      [("secret-id", "late")] ].

(** Headers as a browser reports them, with one that is not replayed. *)
Definition browser_headers : Headers :=
  [("secret-id", "id-1"); ("user-agent", "Mozilla/5.0");
   ("secret-key", "key-1"); ("accept", "*/*")].

(** A label between a plain element and a wrapper that holds the input. *)
Definition demo_site : LabelSite :=
  {| label := Element "LABEL" 2 [];
     control := None;
     previousSiblings := [Element "SPAN" 1 []];
     nextSiblings := [Element "DIV" 3 [Element "INPUT" 4 []]];
     parentTag := Some ("DIV", 0%nat) |}.

(* ===================================================================== *)
(** * Part II: properties                                                 *)
(* ===================================================================== *)

#[local] Set Warnings "-clear-no-such-hyp".

(** ** The extractor terminates and visits every node once *)

Section Walk.
Variable is_detail : Val -> bool.
Variable h : heap.

Lemma extends_refl st : extends is_detail h st st [].
Proof.
  repeat split; simpl.
  - set_solver.
  - by rewrite app_nil_r.
  - constructor.
  - set_solver.
Qed.

Lemma extends_trans st1 st2 st3 o1 o2 :
  extends is_detail h st1 st2 o1 → extends is_detail h st2 st3 o2 →
  extends is_detail h st1 st3 (o1 ++ o2).
Proof.
  intros (V1 & D1 & N1 & F1) (V2 & D2 & N2 & F2).
  repeat split.
  - rewrite V2, V1, list_to_set_app_L. set_solver.
  - rewrite D2, D1, omap_app. by rewrite app_assoc.
  - apply NoDup_app. split; [done|]. split; [|done].
    intros l Hl1 Hl2. apply F2 in Hl2. rewrite V1 in Hl2. set_solver.
  - intros l [Hl|Hl]%elem_of_app; [by apply F1|].
    apply F2 in Hl. rewrite V1 in Hl. set_solver.
Qed.

Lemma extends_unvisited st st' o :
  extends is_detail h st st' o → (unvisited h st' ≤ unvisited h st)%nat.
Proof.
  intros (V & _). unfold unvisited. apply subseteq_size. rewrite V.
  set_solver.
Qed.

(** The loop over the children, given that each recursive call returns. *)
Lemma walk_items fuel :
  (∀ node st, (unvisited h st < fuel)%nat →
     ∃ st' o, walk is_detail h fuel node st = Some st'
              ∧ extends is_detail h st st' o) →
  ∀ items st, (unvisited h st < fuel)%nat →
    ∃ st' o,
      fold_left
        (fun acc item =>
           match acc with
           | Some s => walk is_detail h fuel item s
           | None => None
           end) items (Some st) = Some st'
      ∧ extends is_detail h st st' o.
Proof.
  intros IH items. induction items as [|item items IHitems]; intros st Hlt.
  - exists st, []. split; [done|apply extends_refl].
  - destruct (IH item st Hlt) as (st1 & o1 & E1 & X1).
    destruct (IHitems st1) as (st2 & o2 & E2 & X2).
    { pose proof (extends_unvisited _ _ _ X1). lia. }
    exists st2, (o1 ++ o2). split.
    + simpl. by rewrite E1.
    + by eapply extends_trans.
Qed.

(** Fuel above the number of unseen nodes is never used up. *)
Lemma walk_total fuel : ∀ node st,
  (unvisited h st < fuel)%nat →
  ∃ st' o, walk is_detail h fuel node st = Some st'
           ∧ extends is_detail h st st' o.
Proof.
  induction fuel as [|fuel IH]; intros node st Hlt; [lia|].
  destruct node as [| |b|n|s|l];
    try (exists st, []; split;
         [by simpl; rewrite ?orb_true_r|apply extends_refl]).
  simpl. destruct (decide (l ∈ visited st)) as [Hin|Hnin].
  { exists st, []. split; [done|apply extends_refl]. }
  set (st1 := {| visited := {[l]} ∪ visited st; details := _ |}).
  assert (X1 : extends is_detail h st st1 [l]).
  { repeat split; simpl.
    - set_solver.
    - unfold detail_of. by destruct (is_detail _); [|rewrite app_nil_r].
    - apply NoDup_singleton.
    - intros l' ->%list_elem_of_singleton. done. }
  destruct (h !! l) as [o|] eqn:Hl.
  - destruct (walk_items fuel IH (children h l) st1) as (st2 & o2 & E2 & X2).
    { assert ((unvisited h st1 < unvisited h st)%nat); [|lia].
      unfold unvisited. apply subset_size. simpl.
      assert (l ∈ dom h) by (apply elem_of_dom; eauto).
      set_solver. }
    exists st2, ([l] ++ o2). split; [done|]. by eapply extends_trans.
  - exists st1, [l]. split; [|done].
    unfold children. by rewrite Hl.
Qed.

Lemma walk_all_spec (payload : Val) :
  ∃ order, NoDup order
    ∧ walk_all is_detail h payload
      = Some (omap (detail_of is_detail h) order).
Proof.
  destruct (walk_total (S (size h)) payload
              {| visited := ∅; details := [] |}) as (st' & o & E & X).
  { unfold unvisited. simpl. rewrite difference_empty_L, size_dom. lia. }
  destruct X as (_ & D & N & _). simpl in D.
  exists o. split; [done|]. unfold walk_all. by rewrite E, <- D.
Qed.

End Walk.

Lemma walk_ext (f g : Val -> bool) (h : heap) :
  (∀ d, f d = g d) →
  ∀ fuel node st, walk f h fuel node st = walk g h fuel node st.
Proof.
  intros Hfg. induction fuel as [|fuel IH]; intros node st; [done|].
  simpl. destruct (negb (truthy node) || negb (typeof_object node)); [done|].
  destruct node; try done.
  destruct (decide _); [done|]. rewrite Hfg.
  generalize (Some {| visited := {[n]} ∪ visited st;
                      details := if g (get h (VRef n) "detail")
                                 then details st ++ [get h (VRef n) "detail"]
                                 else details st |}).
  induction (children h n) as [|item items IHitems]; intros acc; [done|].
  simpl. destruct acc; [by rewrite IH|done].
Qed.

(** The nodes a finished walk has seen are those the payload leads to. *)
Section Reach.
Variable is_detail : Val -> bool.
Variable h : heap.

Lemma reachable_through l l' x :
  VRef l' ∈ children h l → reachable_from h (VRef l') x →
  reachable_from h (VRef l) x.
Proof.
  intros Hc. induction 1 as [y [= <-]|y y' _ IH Hy].
  - eapply reachable_child; [by apply reachable_root|done].
  - by eapply reachable_child.
Qed.

Lemma walk_items_visits fuel :
  (∀ node st st', walk is_detail h fuel node st = Some st' →
                  visits h [node] st st') →
  ∀ items st st',
    fold_left
      (fun acc item =>
         match acc with
         | Some s => walk is_detail h fuel item s
         | None => None
         end) items (Some st) = Some st' →
    visits h items st st'.
Proof.
  intros IH items. induction items as [|item items IHitems]; intros st st'.
  - intros [= <-]. split; [done|]. split; [by intros l ?%elem_of_nil|].
    intros x Hx Hnx. done.
  - simpl. destruct (walk is_detail h fuel item st) as [st1|] eqn:E1.
    2:{ intros Hf. exfalso. revert Hf. clear.
        induction items; simpl; [done|]. done. }
    intros E2. apply IH in E1 as (S1 & R1 & N1).
    apply IHitems in E2 as (S2 & R2 & N2).
    split; [set_solver|]. split.
    + intros l [[= <-]|Hl]%elem_of_cons; [|by apply R2].
      apply S2, R1. apply list_elem_of_here.
    + intros x Hx Hnx. destruct (decide (x ∈ visited st1)) as [Hin|Hnin].
      * destruct (N1 x Hin Hnx) as [(root & Hroot & Hreach) Hkids].
        apply list_elem_of_singleton in Hroot as ->.
        split; [exists item; split; [apply list_elem_of_here|done]|].
        intros y Hy. by apply S2, Hkids.
      * destruct (N2 x Hx Hnin) as [(root & Hroot & Hreach) Hkids].
        split; [|done]. exists root. split; [|done].
        by apply list_elem_of_further.
Qed.

Lemma walk_visits fuel : ∀ node st st',
  walk is_detail h fuel node st = Some st' → visits h [node] st st'.
Proof.
  induction fuel as [|fuel IH]; intros node st st'; [done|].
  destruct node as [| |b|n|s|l];
    try (simpl; rewrite ?orb_true_r; intros [= <-];
         (split; [done|]); (split; [|done]);
         by intros l [[=]|?%elem_of_nil]%elem_of_cons).
  simpl. destruct (decide (l ∈ visited st)) as [Hin|Hnin].
  { intros [= <-]. split; [done|]. split; [|done].
    by intros l' [[= <-]|?%elem_of_nil]%elem_of_cons. }
  intros E. apply (walk_items_visits fuel IH) in E as (S1 & R1 & N1).
  simpl in S1, N1.
  split; [set_solver|]. split.
  - intros l' [[= <-]|?%elem_of_nil]%elem_of_cons; [set_solver|done].
  - intros x Hx Hnx. destruct (decide (x = l)) as [->|Hne].
    + split; [|done]. exists (VRef l).
      split; [apply list_elem_of_here|by apply reachable_root].
    + destruct (N1 x Hx) as [(root & Hroot & Hreach) Hkids]; [set_solver|].
      split; [|done]. exists (VRef l). split; [apply list_elem_of_here|].
      assert (∃ l', root = VRef l') as [l' ->].
      { destruct Hreach as [y ->|y y' Hy _]; [by eexists|].
        clear -Hy. induction Hy as [? ->|]; [by eexists|done]. }
      by eapply reachable_through.
Qed.

Lemma visited_is_reachable payload st' :
  walk is_detail h (S (size h)) payload {| visited := ∅; details := [] |}
  = Some st' →
  ∀ x, x ∈ visited st' ↔ reachable_from h payload x.
Proof.
  intros E. apply walk_visits in E as (_ & R & N). simpl in N.
  intros x. split.
  - intros Hx. destruct (N x Hx) as [(root & Hroot & Hreach) _]; [set_solver|].
    by apply list_elem_of_singleton in Hroot as ->.
  - induction 1 as [l ->|l l' _ IH Hc].
    + apply R. apply list_elem_of_here.
    + destruct (N l IH) as [_ Hkids]; [set_solver|]. by apply Hkids.
Qed.

End Reach.

(** The extra [!== null] of watch_transactions.js changes nothing. *)
Lemma is_detail_agree d : Watcher.is_detail d = Worker.is_detail d.
Proof.
  unfold Watcher.is_detail, Worker.is_detail.
  destruct d; simpl; rewrite ?andb_false_r, ?andb_true_r; done.
Qed.

Lemma NoDup_omap_inj {A B : Type} (f : A → option B) (l : list A) :
  NoDup l →
  (∀ x y z, x ∈ l → y ∈ l → f x = Some z → f y = Some z → x = y) →
  NoDup (omap f l).
Proof.
  induction 1 as [|x l Hx Hl IH]; intros Hinj; simpl; [constructor|].
  destruct (f x) as [z|] eqn:Hfx.
  - constructor.
    + rewrite list_elem_of_omap. intros (y & Hy & Hfy).
      assert (x = y) by (eapply Hinj; eauto; set_solver). subst. done.
    + apply IH. intros ?????. apply Hinj; set_solver.
  - apply IH. intros ?????. apply Hinj; set_solver.
Qed.

(** In [tree_heap] only node 4 holds a detail. *)
Lemma tree_heap_unshared : details_unshared Watcher.is_detail tree_heap.
Proof.
  assert (Hdet : ∀ l d, detail_of Watcher.is_detail tree_heap l = Some d →
                        l = 4%nat).
  { intros l d. unfold detail_of, get, tree_heap.
    repeat (rewrite lookup_insert; case_decide; [subst l; by vm_compute|]).
    rewrite lookup_singleton. case_decide; [subst l; by vm_compute|done]. }
  intros l1 l2 d H1 H2.
  by rewrite (Hdet _ _ H1), (Hdet _ _ H2).
Defined.

(** In [loop_heap] only node 1 holds a detail. *)
Lemma loop_heap_unshared : details_unshared Watcher.is_detail loop_heap.
Proof.
  assert (Hdet : ∀ l d, detail_of Watcher.is_detail loop_heap l = Some d →
                        l = 1%nat).
  { intros l d. unfold detail_of, get, loop_heap.
    repeat (rewrite lookup_insert; case_decide; [subst l; by vm_compute|]).
    rewrite lookup_singleton. case_decide; [subst l; by vm_compute|done]. }
  intros l1 l2 d H1 H2.
  by rewrite (Hdet _ _ H1), (Hdet _ _ H2).
Defined.

(** C3 fails as stated: in the cyclic graph [cyclic_heap] node 3 refers
    back to its ancestor 2 under "detail", as node 1 does; the walk ends
    and returns the detail object 2 twice. *)
Lemma C3_counterexample :
  Watcher.collectDetailRecords cyclic_heap (VRef 1) = Some [VRef 2; VRef 2]
  ∧ Worker.extractTransactionDetails cyclic_heap (VRef 1)
    = Some [VRef 2; VRef 2]
  ∧ ¬ NoDup [VRef 2; VRef 2].
Proof.
  split; [by vm_compute|]. split; [by vm_compute|].
  intros Hnd. apply NoDup_cons in Hnd as [Hnin _]. set_solver.
Qed.

(** C3, amended: for every object graph, cyclic ones included, the
    extractor terminates (the fuel of [walk_all] is never used up) in both
    variants, with the same result.  The nodes it visits are exactly those
    the payload leads to, each visited once, in the sequence [order]; the
    result holds, in that sequence, the detail of every visited node that
    has one: one entry per holding node.  So each detail object appears
    at most once as soon as no two distinct nodes hold the same object
    under "detail", and once per holding node otherwise. *)
Theorem C3_extractor_terminates (h : heap) (payload : Val) :
  ∃ ds order,
    Watcher.collectDetailRecords h payload = Some ds
    ∧ Worker.extractTransactionDetails h payload = Some ds
    ∧ NoDup order
    ∧ (∀ l, l ∈ order ↔ reachable_from h payload l)
    ∧ ds = omap (detail_of Watcher.is_detail h) order
    ∧ (details_unshared Watcher.is_detail h → NoDup ds).
Proof.
  destruct (walk_total Watcher.is_detail h (S (size h)) payload
              {| visited := ∅; details := [] |}) as (st' & order & E & X).
  { unfold unvisited. simpl. rewrite difference_empty_L, size_dom. lia. }
  destruct X as (V & D & N & _). simpl in V, D.
  exists (details st'), order.
  split; [by unfold Watcher.collectDetailRecords, walk_all; rewrite E|].
  split.
  { unfold Worker.extractTransactionDetails, walk_all.
    by rewrite <- (walk_ext _ _ h is_detail_agree), E. }
  split; [done|]. split.
  { intros l.
    rewrite <- (visited_is_reachable Watcher.is_detail h payload st' E l), V.
    set_solver. }
  split; [done|].
  intros Hun. rewrite D. apply NoDup_omap_inj; [done|].
  intros x y z _ _. apply Hun.
Qed.

Lemma C3_extractor_terminates_witness :
  ∃ ds, Watcher.collectDetailRecords loop_heap (VRef 1) = Some ds
        ∧ Worker.extractTransactionDetails loop_heap (VRef 1) = Some ds
        ∧ NoDup ds.
Proof.
  destruct (C3_extractor_terminates loop_heap (VRef 1))
    as (ds & order & E & E' & _ & _ & _ & Hnd).
  exists ds. split; [exact E|]. split; [exact E'|].
  apply Hnd. exact loop_heap_unshared.
Defined.

(** ** The store *)

Section Upsert.
Context `{JsBuiltins} `{SqlClock}.

Lemma has_reff_reff h detail key :
  has_reff h detail key → reff h detail = key.
Proof. intros [E _]. unfold reff. by rewrite E. Qed.

(** A valid record passes the guard at the head of the loop. *)
Lemma has_reff_truthy h detail key :
  has_reff h detail key →
  negb (truthy detail) || negb (truthy (get h detail "reffNumber")) = false.
Proof.
  intros [E Hne]. rewrite E. destruct detail; try discriminate E. simpl.
  destruct (String.eqb_spec key ""); [done|done].
Qed.

Lemma booleanToInt_cases v :
  booleanToInt v = VNumber (Num (if truthy v then 1 else 0)).
Proof. unfold booleanToInt. by destruct (truthy v). Qed.

Lemma booleanToInt_not_null v : booleanToInt v ≠ VNull.
Proof. rewrite booleanToInt_cases. done. Qed.

(** One statement on a record with a textual key: it succeeds and stores
    a row whose mutable columns are the bound values. *)
Lemma upsert_statement_valid h detail key db :
  get h detail "reffNumber" = VString key →
  ∃ r,
    D1.upsert_statement (mapDetailToColumns h detail) db
    = ({| D1.rows := <[key := r]> (D1.rows db);
          D1.executed := S (D1.executed db) |}, Ok tt)
    ∧ row_columns r = tail (mapDetailToColumns h detail)
    ∧ D1.updated_at r = CURRENT_TIMESTAMP (D1.executed db)
    ∧ D1.created_at r =
        match D1.rows db !! key with
        | Some old => D1.created_at old
        | None => CURRENT_TIMESTAMP (D1.executed db)
        end.
Proof.
  intros E. unfold mapDetailToColumns, D1.upsert_statement. rewrite E.
  destruct (decide (booleanToInt _ = VNull)) as [Hn|_].
  { by apply booleanToInt_not_null in Hn. }
  eexists. split; [reflexivity|].
  destruct (D1.rows db !! key); done.
Qed.

(** Whatever the record, a statement only ever writes a row with a 0/1
    transfer flag, and never trips the NOT NULL constraint. *)
Lemma upsert_statement_flag h detail db db' res :
  D1.upsert_statement (mapDetailToColumns h detail) db = (db', res) →
  (∀ k r, D1.rows db' !! k = Some r →
          D1.rows db !! k = Some r ∨ transfer_flag_ok r)
  ∧ res ≠ Throw (Error
      "NOT NULL constraint failed: transactions.is_transfer_to_rek").
Proof.
  unfold mapDetailToColumns, D1.upsert_statement.
  destruct (get h detail "reffNumber") eqn:E;
    try (intros [= <- <-]; split; [by left|done]).
  destruct (decide (booleanToInt _ = VNull)) as [Hn|_].
  { by apply booleanToInt_not_null in Hn. }
  intros [= <- <-]. split; [|done]. simpl. intros k r.
  rewrite lookup_insert. case_decide; [|by left].
  intros [= <-]. right. unfold transfer_flag_ok.
  rewrite booleanToInt_cases.
  destruct (D1.rows db !! s); simpl; destruct (truthy _); auto.
Qed.

Lemma upsert_loop_step h detail rest stored db key :
  has_reff h detail key →
  ∃ r,
    upsert_loop h (detail :: rest) stored db
    = upsert_loop h rest (S stored)
        {| D1.rows := <[key := r]> (D1.rows db);
           D1.executed := S (D1.executed db) |}
    ∧ row_columns r = tail (mapDetailToColumns h detail)
    ∧ D1.updated_at r = CURRENT_TIMESTAMP (D1.executed db)
    ∧ D1.created_at r =
        match D1.rows db !! key with
        | Some old => D1.created_at old
        | None => CURRENT_TIMESTAMP (D1.executed db)
        end.
Proof.
  intros Hk. pose proof (has_reff_truthy _ _ _ Hk) as Ht.
  destruct Hk as [E _].
  destruct (upsert_statement_valid h detail key db E) as (r & Es & Hr).
  exists r. split; [|done].
  cbn [upsert_loop]. rewrite Ht. by rewrite Es.
Qed.

(** A batch of valid records is stored in full: the loop succeeds,
    counts every record, and the keys present afterwards are the old ones
    together with the batch's reference numbers. *)
Lemma upsert_loop_dom h details : ∀ stored db,
  Forall (valid_detail h) details →
  ∃ db',
    upsert_loop h details stored db
    = (db', Ok (stored + List.length details)%nat)
    ∧ D1.executed db' = (D1.executed db + List.length details)%nat
    ∧ dom (D1.rows db')
      = dom (D1.rows db) ∪ list_to_set (reff h <$> details).
Proof.
  induction details as [|detail rest IH]; intros stored db Hv.
  - exists db. simpl. rewrite !Nat.add_0_r. split; [done|]. split; [done|].
    set_solver.
  - apply Forall_cons in Hv as [[key Hk] Hv].
    destruct (upsert_loop_step h detail rest stored db key Hk)
      as (r & -> & _).
    destruct (IH (S stored) {| D1.rows := <[key := r]> (D1.rows db);
                               D1.executed := S (D1.executed db) |} Hv)
      as (db' & E & X & D).
    exists db'. rewrite E. simpl in *. split; [f_equal; f_equal; lia|].
    split; [lia|]. rewrite D, dom_insert_L, (has_reff_reff _ _ _ Hk).
    set_solver.
Qed.

(** With pairwise-distinct reference numbers, the row of the i-th record
    holds that record's values, carries the timestamp of its statement as
    [updated_at], and keeps the [created_at] of the row it replaced;
    rows under other keys are untouched. *)
Lemma upsert_loop_rows h details : ∀ stored db,
  Forall (valid_detail h) details →
  NoDup (reff h <$> details) →
  ∃ db' n,
    upsert_loop h details stored db = (db', Ok n)
    ∧ (∀ k, k ∉ (reff h <$> details) →
            D1.rows db' !! k = D1.rows db !! k)
    ∧ (∀ (i : nat) d, details !! i = Some d →
         ∃ r, D1.rows db' !! reff h d = Some r
           ∧ row_columns r = tail (mapDetailToColumns h d)
           ∧ D1.updated_at r = CURRENT_TIMESTAMP (D1.executed db + i)%nat
           ∧ D1.created_at r =
               match D1.rows db !! reff h d with
               | Some old => D1.created_at old
               | None => CURRENT_TIMESTAMP (D1.executed db + i)%nat
               end).
Proof.
  induction details as [|detail rest IH]; intros stored db Hv Hnd.
  - exists db, stored. split; [done|]. split; [done|]. intros i d Hi.
    by rewrite lookup_nil in Hi.
  - apply Forall_cons in Hv as [[key Hk] Hv].
    rewrite fmap_cons in Hnd. apply NoDup_cons in Hnd as [Hfresh Hnd].
    rewrite (has_reff_reff _ _ _ Hk) in Hfresh.
    destruct (upsert_loop_step h detail rest stored db key Hk)
      as (r & -> & Hc & Hu & Hcr).
    destruct (IH (S stored) {| D1.rows := <[key := r]> (D1.rows db);
                               D1.executed := S (D1.executed db) |} Hv Hnd)
      as (db' & n & E & Hframe & Hrows).
    exists db', n. split; [done|]. simpl in *. split.
    + intros k Hnk. rewrite ?fmap_cons, (has_reff_reff _ _ _ Hk) in Hnk.
      apply not_elem_of_cons in Hnk as [Hne Hnk].
      rewrite (Hframe k Hnk). by rewrite lookup_insert_ne.
    + intros [|i] d Hi; simpl in Hi.
      * injection Hi as <-. rewrite (has_reff_reff _ _ _ Hk).
        exists r. rewrite (Hframe key Hfresh), lookup_insert_eq.
        rewrite Nat.add_0_r. done.
      * destruct (Hrows i d Hi) as (r' & Hl & Hc' & Hu' & Hcr').
        assert (reff h d ≠ key) as Hne.
        { intros <-. apply Hfresh. apply list_elem_of_fmap.
          exists d. split; [done|]. by eapply list_elem_of_lookup_2. }
        exists r'. rewrite lookup_insert_ne in Hcr' by done.
        replace (D1.executed db + S i)%nat with (S (D1.executed db) + i)%nat
          by lia.
        done.
Qed.

(** Every row a batch writes has a 0/1 transfer flag, whatever the
    records are, and the NOT NULL constraint never fails. *)
Lemma upsert_loop_flag h details : ∀ stored db db' res,
  upsert_loop h details stored db = (db', res) →
  (∀ k r, D1.rows db' !! k = Some r →
          D1.rows db !! k = Some r ∨ transfer_flag_ok r)
  ∧ res ≠ Throw (Error
      "NOT NULL constraint failed: transactions.is_transfer_to_rek").
Proof.
  induction details as [|detail rest IH]; intros stored db db' res.
  - intros [= <- <-]. split; [by left|done].
  - cbn [upsert_loop].
    destruct (negb (truthy detail) || _); [apply IH|].
    destruct (D1.upsert_statement _ db) as [db1 [[]|e]] eqn:Es;
      destruct (upsert_statement_flag _ _ _ _ _ Es) as [Hw Hn].
    + intros E. destruct (IH _ _ _ _ E) as [Hw' Hn']. split; [|done].
      intros k r Hl. destruct (Hw' k r Hl) as [Hl1|]; [|by right].
      by apply Hw.
    + intros [= <- <-]. split; [done|]. intros [= ->]. by apply Hn.
Qed.

End Upsert.

Lemma filter_complement_length {A : Type} (f : A → string) (ks : list string)
    (l : list A) :
  (List.length (filter (λ k, k ∉ ks) (f <$> l))
   + List.length (filter (λ d, f d ∈ ks) l) = List.length l)%nat.
Proof.
  induction l as [|x l IH]; [done|].
  rewrite fmap_cons, !filter_cons.
  destruct (decide (f x ∈ ks)); destruct (decide (f x ∉ ks)); try done;
    simpl; lia.
Qed.

Lemma size_union_lists (ks1 ks2 : list string) :
  NoDup ks1 → NoDup ks2 →
  size (list_to_set ks1 ∪ list_to_set ks2 : gset string)
  = (List.length ks1 + List.length (filter (λ k, k ∉ ks1) ks2))%nat.
Proof.
  intros N1 N2. rewrite size_union_alt.
  rewrite size_list_to_set by done. f_equal.
  rewrite <- (size_list_to_set (C := gset string)
                (filter (λ k, k ∉ ks1) ks2)) by by apply NoDup_filter.
  f_equal. apply set_eq. intros k.
  rewrite elem_of_difference, !elem_of_list_to_set, list_elem_of_filter.
  tauto.
Qed.

Lemma demo_valid (l : nat) (key : string) :
  get demo_heap (VRef l) "reffNumber" = VString key →
  bool_decide (key ≠ "") = true →
  valid_detail demo_heap (VRef l).
Proof.
  intros E Hk. exists key. split; [exact E|].
  exact (bool_decide_eq_true_1 _ Hk).
Defined.

(** C1: starting from an empty table, upserting a batch of N valid
    records with pairwise-distinct reference numbers and then a batch of M
    such records, K of which carry a reference number of the first batch,
    succeeds twice (in database.ts and in watch_transactions.js alike) and
    leaves exactly N + M - K rows. *)
Theorem C1_upsert_row_count `{JsBuiltins} `{SqlClock}
    (h1 h2 : heap) (b1 b2 : list Val) :
  Forall (valid_detail h1) b1 → Forall (valid_detail h2) b2 →
  NoDup (reff h1 <$> b1) → NoDup (reff h2 <$> b2) →
  let N := List.length b1 in
  let M := List.length b2 in
  let K := List.length (filter (λ d, reff h2 d ∈ (reff h1 <$> b1)) b2) in
  ∃ db1 db2,
    Worker.upsertTransactions h1 b1 D1.empty = (db1, Ok N)
    ∧ Worker.upsertTransactions h2 b2 db1 = (db2, Ok M)
    ∧ Watcher.persistDetails h1 b1 D1.empty = (db1, Ok N)
    ∧ Watcher.persistDetails h2 b2 db1 = (db2, Ok M)
    ∧ D1.count_rows db2 = (N + M - K)%nat.
Proof.
  intros Hv1 Hv2 N1 N2 N M K.
  destruct (upsert_loop_dom h1 b1 0%nat D1.empty Hv1) as (db1 & E1 & _ & D1).
  destruct (upsert_loop_dom h2 b2 0%nat db1 Hv2) as (db2 & E2 & _ & D2).
  exists db1, db2. repeat split; try done.
  unfold D1.count_rows. rewrite <- size_dom, D2, D1. simpl.
  rewrite dom_empty_L, (left_id_L ∅ (∪)).
  rewrite size_union_lists by done. rewrite !length_fmap.
  pose proof (filter_complement_length (reff h2) (reff h1 <$> b1) b2).
  subst N M K. lia.
Qed.

Lemma C1_upsert_row_count_witness :
  ∃ db1 db2,
    Worker.upsertTransactions (H := demo_builtins) (H0 := demo_clock)
      demo_heap [VRef 1; VRef 2] D1.empty = (db1, Ok 2%nat)
    ∧ Worker.upsertTransactions (H := demo_builtins) (H0 := demo_clock)
        demo_heap [VRef 3; VRef 4] db1 = (db2, Ok 2%nat)
    ∧ D1.count_rows db2 = 3%nat.
Proof.
  destruct (@C1_upsert_row_count demo_builtins demo_clock demo_heap demo_heap
              [VRef 1; VRef 2] [VRef 3; VRef 4])
    as (db1 & db2 & E1 & E2 & _ & _ & Hc).
  - repeat constructor.
    + by apply (demo_valid 1 "TX1").
    + by apply (demo_valid 2 "TX2").
  - repeat constructor.
    + by apply (demo_valid 3 "TX2").
    + by apply (demo_valid 4 "TX3").
  - refine (bool_decide_unpack _ _). by vm_compute.
  - refine (bool_decide_unpack _ _). by vm_compute.
  - exists db1, db2. split; [exact E1|]. split; [exact E2|]. exact Hc.
Defined.

(** *** The clock readings kept in [updated_at] *)

Section Stamps.
Context `{JsBuiltins} `{SqlClock}.

Lemma stamped_empty : stamped D1.empty.
Proof. intros k r Hl. simpl in Hl. by rewrite lookup_empty in Hl. Qed.

Lemma stamped_tick db : stamped db → stamped (D1.tick db).
Proof.
  intros Hs k r Hl. destruct (Hs k r Hl) as (j & Hj & Hu).
  exists j. split; [simpl; lia|done].
Qed.

(** Each statement keeps the table stamped. *)
Lemma upsert_statement_stamped params db db' res :
  stamped db → D1.upsert_statement params db = (db', res) → stamped db'.
Proof.
  intros Hs. unfold D1.upsert_statement.
  repeat (destruct params as [|? params];
          [by intros [= <- _]; apply stamped_tick|]).
  destruct params; [|by intros [= <- _]; apply stamped_tick].
  destruct v; try (by intros [= <- _]; apply stamped_tick).
  case_decide; [by intros [= <- _]; apply stamped_tick|].
  intros [= <- _]. intros k r. simpl.
  destruct (decide (k = s)) as [->|Hne].
  - rewrite lookup_insert_eq. intros [= <-].
    exists (D1.executed db). split; [lia|].
    by destruct (D1.rows db !! s).
  - rewrite lookup_insert_ne by done. intros Hl.
    destruct (Hs k r Hl) as (j & Hj & Hu). exists j. split; [lia|done].
Qed.

Lemma upsert_loop_stamped h details : ∀ stored db db' res,
  stamped db → upsert_loop h details stored db = (db', res) → stamped db'.
Proof.
  induction details as [|d rest IH]; intros stored db db' res Hs;
    cbn [upsert_loop].
  - by intros [= <- _].
  - destruct (negb (truthy d) || negb (truthy (get h d "reffNumber"))).
    { by apply IH. }
    destruct (D1.upsert_statement (mapDetailToColumns h d) db)
      as [db1 [[]|e]] eqn:E.
    + apply IH. by eapply upsert_statement_stamped.
    + intros [= <- _]. by eapply upsert_statement_stamped.
Qed.
End Stamps.

(** C6 fails as stated: CURRENT_TIMESTAMP counts whole seconds, and when
    the row was written within the second in which it is upserted again,
    the second upsert replaces the mutable columns and keeps created-at,
    but leaves updated-at at the value it had: it is not advanced. *)
Lemma C6_counterexample :
  (Worker.upsertTransactions (H := demo_builtins) (H0 := same_second)
     demo_heap [VRef 2] D1.empty).1 = demo_db
  ∧ D1.rows demo_db !! "TX2" = Some demo_old
  ∧ ∃ db' r,
      Worker.upsertTransactions (H := demo_builtins) (H0 := same_second)
        demo_heap [VRef 3] demo_db = (db', Ok 1%nat)
      ∧ D1.rows db' !! "TX2" = Some r
      ∧ D1.customer_name r = VString "JOHN DOE"
      ∧ D1.is_transfer_to_rek r = VNumber (Num 1)
      ∧ D1.created_at r = D1.created_at demo_old
      ∧ D1.updated_at r = D1.updated_at demo_old
      ∧ ¬ D1.updated_at demo_old < D1.updated_at r.
Proof.
  split; [by vm_compute|]. split; [by vm_compute|].
  eexists _, _. split; [by vm_compute|]. split; [by vm_compute|].
  repeat split. simpl. lia.
Qed.

(** C6, amended: when a record of a batch of valid records with
    pairwise-distinct reference numbers is upserted while a row with its
    reference number exists, the row afterwards holds the record's bound
    values in every mutable column, keeps its created-at value, and has
    the clock reading of the record's statement as updated-at.  For a
    table whose rows were written by earlier statements, that reading is
    not earlier than the old one as long as the clock does not run
    backwards, and later when every statement reads a later second than
    the one before it. *)
Theorem C6_upsert_last_write_wins `{JsBuiltins} `{SqlClock}
    (h : heap) (details : list Val) (db : D1.Db)
    (i : nat) (detail : Val) (old : D1.Row) :
  Forall (valid_detail h) details →
  NoDup (reff h <$> details) →
  details !! i = Some detail →
  D1.rows db !! reff h detail = Some old →
  ∃ db' n r,
    Worker.upsertTransactions h details db = (db', Ok n)
    ∧ Watcher.persistDetails h details db = (db', Ok n)
    ∧ D1.rows db' !! reff h detail = Some r
    ∧ row_columns r = tail (mapDetailToColumns h detail)
    ∧ D1.created_at r = D1.created_at old
    ∧ D1.updated_at r = CURRENT_TIMESTAMP (D1.executed db + i)%nat
    ∧ (stamped db → clock_monotone → D1.updated_at old ≤ D1.updated_at r)
    ∧ (stamped db → clock_advancing → D1.updated_at old < D1.updated_at r)
    ∧ (stamped db → stamped db').
Proof.
  intros Hv Hnd Hi Hold.
  destruct (upsert_loop_rows h details 0%nat db Hv Hnd)
    as (db' & n & E & _ & Hrows).
  destruct (Hrows i detail Hi) as (r & Hl & Hc & Hu & Hcr).
  rewrite Hold in Hcr.
  exists db', n, r. split; [done|]. split; [done|]. split; [done|].
  split; [done|]. split; [done|]. split; [done|]. split; [|split].
  - intros Hs Hm. destruct (Hs _ _ Hold) as (j & Hj & ->). rewrite Hu.
    apply Hm. lia.
  - intros Hs Hm. destruct (Hs _ _ Hold) as (j & Hj & ->). rewrite Hu.
    apply Hm. lia.
  - intros Hs. by eapply upsert_loop_stamped.
Qed.

Lemma C6_upsert_last_write_wins_witness :
  ∃ db' n r,
    Worker.upsertTransactions (H := demo_builtins) (H0 := demo_clock)
      demo_heap [VRef 3] demo_db = (db', Ok n)
    ∧ D1.rows db' !! "TX2" = Some r
    ∧ D1.customer_name r = VString "JOHN DOE"
    ∧ D1.created_at r = 1000
    ∧ D1.updated_at r = 1001
    ∧ D1.updated_at demo_old < D1.updated_at r.
Proof.
  destruct (@C6_upsert_last_write_wins demo_builtins demo_clock demo_heap
              [VRef 3] demo_db 0%nat (VRef 3) demo_old)
    as (db' & n & r & E & _ & Hl & Hc & Hcr & Hu & _ & Hadv & _).
  - repeat constructor. by apply (demo_valid 3 "TX2").
  - refine (bool_decide_unpack _ _). by vm_compute.
  - reflexivity.
  - by vm_compute.
  - exists db', n, r. split; [exact E|]. split; [exact Hl|].
    split; [by injection Hc|]. split; [exact Hcr|]. split; [exact Hu|].
    apply Hadv.
    + eapply (upsert_loop_stamped (H := demo_builtins) (H0 := demo_clock)
                demo_heap [VRef 2] 0%nat D1.empty);
        [apply stamped_empty|].
      unfold demo_db, Worker.upsertTransactions. apply surjective_pairing.
    + intros a b Hab. simpl. lia.
Defined.

(** C9: every row an upsert writes, whatever its input records, has
    [is_transfer_to_rek] equal to 0 or 1; the bound value is 1 for a truthy
    [isTransferToRek] and 0 for an absent, null or otherwise falsy one,
    never NULL, so the NOT NULL constraint of the column never fails. *)
Theorem C9_transfer_flag_never_null `{JsBuiltins} `{SqlClock}
    (h : heap) (details : list Val) (db db' : D1.Db) (res : Result nat) :
  Worker.upsertTransactions h details db = (db', res) →
  Watcher.persistDetails h details db = (db', res)
  ∧ (∀ k r, D1.rows db' !! k = Some r →
            D1.rows db !! k = Some r ∨ transfer_flag_ok r)
  ∧ res ≠ Throw (Error
      "NOT NULL constraint failed: transactions.is_transfer_to_rek")
  ∧ (∀ detail,
       mapDetailToColumns h detail !! 2%nat
       = Some (VNumber (Num (if truthy (get h detail "isTransferToRek")
                             then 1 else 0))))
  ∧ (∀ detail v,
       get h detail "isTransferToRek" = v →
       v = VUndefined ∨ v = VNull ∨ truthy v = false →
       mapDetailToColumns h detail !! 2%nat = Some (VNumber (Num 0))).
Proof.
  intros E. split; [exact E|].
  destruct (upsert_loop_flag h details 0%nat db db' res E) as [Hw Hn].
  split; [exact Hw|]. split; [exact Hn|]. split.
  - intros detail. simpl. by rewrite booleanToInt_cases.
  - intros detail v <- Hv. simpl. rewrite booleanToInt_cases.
    by destruct Hv as [->| [->| ->]].
Qed.

Lemma C9_transfer_flag_never_null_witness :
  (∀ k r, D1.rows demo_db !! k = Some r → transfer_flag_ok r)
  ∧ mapDetailToColumns (H := demo_builtins) demo_heap (VRef 2) !! 2%nat
    = Some (VNumber (Num 0)).
Proof.
  destruct (@C9_transfer_flag_never_null demo_builtins demo_clock demo_heap
              [VRef 2] D1.empty demo_db (Ok 1%nat))
    as (_ & Hw & _ & _ & Hnull).
  - reflexivity.
  - split.
    + intros k r Hl. destruct (Hw k r Hl) as [Hempty|Hok]; [|exact Hok].
      simpl in Hempty. by rewrite lookup_empty in Hempty.
    + apply (Hnull (VRef 2) VNull); [reflexivity|]. right. by left.
Defined.

(** ** Strings: [includes] and [toLowerCase] *)

Lemma startsWith_spec (s p : string) :
  startsWith s p = true ↔ ∃ post, s = p +:+ post.
Proof.
  revert s. induction p as [|a p IH]; intros s; simpl.
  - split; [intros _; by exists s|done].
  - destruct s as [|b s].
    + split; [done|]. intros [post [=]].
    + rewrite andb_true_iff, IH. split.
      * intros [Hab [post ->]]. apply Ascii.eqb_eq in Hab as ->.
        by exists post.
      * intros [post [= -> ->]]. split; [apply Ascii.eqb_refl|by exists post].
Qed.

Lemma includes_spec (s p : string) :
  includes s p = true ↔ ∃ pre post, s = pre +:+ p +:+ post.
Proof.
  induction s as [|c s IH].
  - simpl. rewrite orb_false_r, startsWith_spec. split.
    + intros [post E]. by exists "", post.
    + intros (pre & post & E). destruct pre; [by exists post|done].
  - cbn [includes]. rewrite orb_true_iff, startsWith_spec, IH. split.
    + intros [[post E]|(pre & post & E)].
      * by exists "", post.
      * exists (String c pre), post. simpl. by rewrite E.
    + intros (pre & post & E). destruct pre as [|c' pre].
      * left. by exists post.
      * right. injection E as -> ->. by exists pre, post.
Qed.

Lemma toLowerCase_app (a b : string) :
  toLowerCase (a +:+ b) = toLowerCase a +:+ toLowerCase b.
Proof. induction a as [|c a IH]; simpl; [done|by rewrite IH]. Qed.

Lemma toLowerCase_split (s a b : string) :
  toLowerCase s = a +:+ b →
  ∃ a' b', s = a' +:+ b' ∧ toLowerCase a' = a ∧ toLowerCase b' = b.
Proof.
  revert s. induction a as [|c a IH]; intros s E.
  - by exists "", s.
  - destruct s as [|c' s]; [done|]. simpl in E. injection E as Hc E.
    destruct (IH s E) as (a' & b' & -> & Ha & Hb).
    exists (String c' a'), b'. simpl. by rewrite Hc, Ha.
Qed.

(** Searching the lower-cased message for a lower-case keyword is
    searching the message with letter case ignored. *)
Lemma includes_lower_spec (msg kw : string) :
  toLowerCase kw = kw →
  includes (toLowerCase msg) kw = true ↔ contains_ignoring_case msg kw.
Proof.
  intros Hkw. rewrite includes_spec. unfold contains_ignoring_case. split.
  - intros (pre & post & E).
    apply toLowerCase_split in E as (pre' & rest & -> & Hpre & E).
    apply toLowerCase_split in E as (mid & post' & -> & Hmid & Hpost).
    exists pre', mid, post'. by rewrite Hmid, Hkw.
  - intros (pre & mid & post & -> & E).
    exists (toLowerCase pre), (toLowerCase post).
    by rewrite !toLowerCase_app, E, Hkw.
Qed.

(** ** The scheduler *)

Lemma shouldRelogin_spec (e : JsError) :
  Watcher.shouldRelogin e = true ↔ authentication_failure e.
Proof.
  unfold Watcher.shouldRelogin, authentication_failure.
  rewrite <- !includes_lower_spec by done.
  destruct (bool_decide (err_status e = Some 401)) eqn:E1.
  { apply bool_decide_eq_true in E1. simpl. tauto. }
  destruct (bool_decide (err_status e = Some 403)) eqn:E2.
  { apply bool_decide_eq_true in E2. simpl. tauto. }
  apply bool_decide_eq_false in E1, E2. simpl.
  rewrite !orb_true_iff. tauto.
Qed.

Lemma login_attempts_app (a b : list Event) :
  login_attempts (a ++ b) = (login_attempts a + login_attempts b)%nat.
Proof. unfold login_attempts. by rewrite List.filter_app, length_app. Qed.

Section Poll.
Context `{JsBuiltins} `{SqlClock}.
Variable cfg : Config.

Lemma refresh_no_login env hs :
  login_attempts (Watcher.refreshHeadersIfNeeded env hs).1 = 0%nat.
Proof.
  unfold Watcher.refreshHeadersIfNeeded. by destruct (has_header _ _).
Qed.

Lemma fetch_one_request headers s e resp :
  (Watcher.fetchTransactions headers s e resp).1
  = [EvRequest TRANSACTION_API_URL s e (Watcher.filterHeaders headers)].
Proof. done. Qed.

(** An answer outside 200..299 is thrown with its status. *)
Lemma fetch_http_error headers s e status body :
  response_ok status = false →
  ∃ err,
    (Watcher.fetchTransactions headers s e (HttpResponse status body)).2
    = Throw err
    ∧ err_status err = Some status.
Proof.
  intros Hok. unfold Watcher.fetchTransactions. simpl. rewrite Hok. simpl.
  eexists. split; [reflexivity|done].
Qed.

Lemma poll_catch_no_relogin env e headers :
  Watcher.shouldRelogin e = false →
  Watcher.poll_catch cfg env e headers = (headers, [EvLogFailure e]).
Proof. unfold Watcher.poll_catch. by intros ->. Qed.

(** The [catch] block on an authentication failure: one forced login,
    then the transactions page and a capture when each step succeeds. *)
Lemma poll_catch_relogin env e headers :
  Watcher.shouldRelogin e = true →
  ∃ rest,
    (Watcher.poll_catch cfg env e headers).2
    = EvLogFailure e :: EvEnsureLogin true :: rest
    ∧ login_attempts rest = 0%nat
    ∧ (Watcher.ensureLogin cfg true (Watcher.relogin env) = Ok tt →
       Watcher.transactions_page env = Ok tt →
       ∃ rest', rest = EvOpenTransactionsPage :: EvCaptureHeaders :: rest'
         ∧ ∀ fresh, Watcher.capture_after_login env = Ok fresh →
             (Watcher.poll_catch cfg env e headers).1 = fresh).
Proof.
  unfold Watcher.poll_catch. intros ->.
  destruct (Watcher.ensureLogin _ _ _) as [[]|e1].
  2:{ eexists. split; [done|]. split; [done|]. intros [=]. }
  destruct (Watcher.transactions_page env) as [[]|e2].
  2:{ eexists. split; [done|]. split; [done|]. intros _ [=]. }
  destruct (Watcher.capture_after_login env) as [fresh|e3];
    eexists; (split; [done|]); (split; [done|]); intros _ _;
    eexists; (split; [done|]); by intros ? [= <-].
Qed.

Lemma poll_cycle_fetch_failed env w headers e :
  (Watcher.refreshHeadersIfNeeded env (Watcher.latestHeaders w)).2
  = Ok headers →
  (Watcher.fetchTransactions headers (Watcher.today env) (Watcher.today env)
     (Watcher.response env)).2 = Throw e →
  Watcher.poll_cycle cfg env w
  = ({| Watcher.polling := false;
        Watcher.lastRun := Watcher.lastRun w;
        Watcher.latestHeaders := (Watcher.poll_catch cfg env e headers).1;
        Watcher.db := Watcher.db w |},
     (Watcher.refreshHeadersIfNeeded env (Watcher.latestHeaders w)).1
     ++ [EvRequest TRANSACTION_API_URL (Watcher.today env)
           (Watcher.today env) (Watcher.filterHeaders headers)]
     ++ (Watcher.poll_catch cfg env e headers).2).
Proof.
  intros Hr Hf. unfold Watcher.poll_cycle, Watcher.fetchAndStore.
  rewrite (surjective_pairing (Watcher.refreshHeadersIfNeeded _ _)), Hr.
  rewrite (surjective_pairing (Watcher.fetchTransactions _ _ _ _)), Hf.
  rewrite fetch_one_request.
  by destruct (Watcher.poll_catch cfg env e headers).
Qed.

(** The [finally] block: a finished cycle leaves the flag lowered. *)
Lemma poll_cycle_lowers_flag env w :
  Watcher.polling (Watcher.poll_cycle cfg env w).1 = false.
Proof.
  unfold Watcher.poll_cycle.
  destruct (Watcher.refreshHeadersIfNeeded _ _) as [evs1 [hs|e]].
  - destruct (Watcher.fetchAndStore _ _ _) as [[d evs2] [[]|e]]; [done|].
    by destruct (Watcher.poll_catch _ _ _ _).
  - by destruct (Watcher.poll_catch _ _ _ _).
Qed.

Lemma poll_enter_skips now w :
  Watcher.polling w = true
  ∨ now - Watcher.lastRun w < pollIntervalMs cfg - 1000 →
  Watcher.poll_enter cfg now w = None.
Proof.
  unfold Watcher.poll_enter. intros [-> | Hlt]; [done|].
  destruct (Watcher.polling w); [done|].
  by apply Z.ltb_lt in Hlt as ->.
Qed.

Lemma poll_enter_starts now w w1 :
  Watcher.poll_enter cfg now w = Some w1 →
  Watcher.polling w = false ∧ Watcher.polling w1 = true
  ∧ Watcher.lastRun w1 = now.
Proof.
  unfold Watcher.poll_enter. destruct (Watcher.polling w); [done|].
  destruct (_ <? _); [done|]. by intros [= <-].
Qed.

Lemma sched_step_invariant s s' :
  flag_tracks_flight s → Watcher.sched_step cfg s s' →
  flag_tracks_flight s'.
Proof.
  unfold flag_tracks_flight. intros Hinv Hstep.
  destruct Hstep as [now s|env s Hpos].
  - destruct (Watcher.poll_enter cfg now (Watcher.watch s)) as [w1|] eqn:E;
      [|done].
    apply poll_enter_starts in E as (Hoff & Hon & _). simpl.
    rewrite Hon, Hinv, Hoff. done.
  - simpl. rewrite poll_cycle_lowers_flag, Hinv.
    by destruct (Watcher.polling _).
Qed.

Lemma reachable_invariant hs d s :
  Watcher.reachable cfg (Watcher.initial hs d) s → flag_tracks_flight s.
Proof.
  induction 1 as [|s s' _ IH Hstep]; [done|].
  by eapply sched_step_invariant.
Qed.

End Poll.

(** C2: in a cycle whose header refresh succeeded and whose replay fetch
    threw the error [e], the scheduler classifies [e] as an authentication
    failure exactly when it carries status 401 or 403 or its message
    contains "unauthorized", "forbidden" or "login" with letter case
    ignored.  On such a failure the cycle starts exactly one forced login,
    followed, when the login and the page navigation succeed, by a header
    capture whose result replaces the header set, all before the flag is
    lowered for the next cycle; on any other failure it logs the error and
    starts no login.  A replay answered with HTTP 401 (or 403) leads to
    exactly one forced login. *)
Theorem C2_relogin_iff_authentication_failure `{JsBuiltins} `{SqlClock}
    (cfg : Config) (env : Watcher.CycleEnv) (w : Watcher.Watch)
    (headers : Headers) (e : JsError) :
  (Watcher.refreshHeadersIfNeeded env (Watcher.latestHeaders w)).2
  = Ok headers →
  (Watcher.fetchTransactions headers (Watcher.today env) (Watcher.today env)
     (Watcher.response env)).2 = Throw e →
  let w' := (Watcher.poll_cycle cfg env w).1 in
  let evs := (Watcher.poll_cycle cfg env w).2 in
  Watcher.polling w' = false
  ∧ (Watcher.shouldRelogin e = true ↔ authentication_failure e)
  ∧ (authentication_failure e →
       login_attempts evs = 1%nat
       ∧ (Watcher.ensureLogin cfg true (Watcher.relogin env) = Ok tt →
          Watcher.transactions_page env = Ok tt →
          (∃ pre post,
             evs = pre ++ [EvLogFailure e; EvEnsureLogin true;
                           EvOpenTransactionsPage; EvCaptureHeaders] ++ post)
          ∧ ∀ fresh, Watcher.capture_after_login env = Ok fresh →
              Watcher.latestHeaders w' = fresh))
  ∧ (¬ authentication_failure e →
       login_attempts evs = 0%nat
       ∧ Watcher.latestHeaders w' = headers
       ∧ ∃ pre, evs = pre ++ [EvLogFailure e])
  ∧ (∀ status body,
       Watcher.response env = HttpResponse status body →
       status = 401 ∨ status = 403 →
       login_attempts evs = 1%nat).
Proof.
  intros Hr Hf w' evs. subst w' evs.
  rewrite (poll_cycle_fetch_failed cfg env w headers e Hr Hf). simpl.
  pose proof (refresh_no_login env (Watcher.latestHeaders w)) as Hn.
  set (evs1 := (Watcher.refreshHeadersIfNeeded env (Watcher.latestHeaders w)).1)
    in *.
  assert (Hauth : authentication_failure e →
            login_attempts
              (evs1 ++ EvRequest TRANSACTION_API_URL (Watcher.today env)
                 (Watcher.today env) (Watcher.filterHeaders headers)
                 :: (Watcher.poll_catch cfg env e headers).2) = 1%nat
            ∧ (Watcher.ensureLogin cfg true (Watcher.relogin env) = Ok tt →
               Watcher.transactions_page env = Ok tt →
               (∃ pre post,
                  evs1 ++ EvRequest TRANSACTION_API_URL (Watcher.today env)
                    (Watcher.today env) (Watcher.filterHeaders headers)
                    :: (Watcher.poll_catch cfg env e headers).2
                  = pre ++ [EvLogFailure e; EvEnsureLogin true;
                            EvOpenTransactionsPage; EvCaptureHeaders] ++ post)
               ∧ ∀ fresh, Watcher.capture_after_login env = Ok fresh →
                   (Watcher.poll_catch cfg env e headers).1 = fresh)).
  { intros Ha%shouldRelogin_spec.
    destruct (poll_catch_relogin cfg env e headers Ha)
      as (rest & -> & Hrest & Hseq).
    split.
    - rewrite login_attempts_app, Hn. unfold login_attempts in *. simpl.
      by rewrite Hrest.
    - intros Hl Hp. destruct (Hseq Hl Hp) as (rest' & -> & Hfresh).
      split; [|done].
      exists (evs1 ++ [EvRequest TRANSACTION_API_URL (Watcher.today env)
                 (Watcher.today env) (Watcher.filterHeaders headers)]), rest'.
      by rewrite <- app_assoc. }
  split; [done|]. split; [apply shouldRelogin_spec|]. split; [exact Hauth|].
  split.
  - intros Hna.
    assert (Watcher.shouldRelogin e = false) as Hs.
    { destruct (Watcher.shouldRelogin e) eqn:E; [|done].
      by apply shouldRelogin_spec in E. }
    rewrite (poll_catch_no_relogin cfg env e headers Hs). simpl.
    split; [by rewrite login_attempts_app, Hn|]. split; [done|].
    exists (evs1 ++ [EvRequest TRANSACTION_API_URL (Watcher.today env)
               (Watcher.today env) (Watcher.filterHeaders headers)]).
    by rewrite <- app_assoc.
  - intros status body Hresp Hst. apply Hauth.
    rewrite Hresp in Hf.
    destruct (fetch_http_error headers (Watcher.today env) (Watcher.today env)
                status body) as (err & Herr & Hs).
    { by destruct Hst as [-> | ->]. }
    rewrite Herr in Hf. injection Hf as <-.
    unfold authentication_failure. rewrite Hs.
    destruct Hst as [-> | ->]; auto.
Qed.

Lemma C2_relogin_iff_authentication_failure_witness :
  login_attempts
    (Watcher.poll_cycle (H := demo_builtins) (H0 := demo_clock)
       default_config cycle_unauthorized idle_watch).2 = 1%nat.
Proof.
  destruct (@C2_relogin_iff_authentication_failure demo_builtins demo_clock
              default_config cycle_unauthorized idle_watch demo_headers
              {| err_status := Some 401;
                 err_message := "Transaction fetch failed: HTTP 401 ";
                 err_body := Some "Unauthorized" |})
    as (_ & _ & _ & _ & H401).
  - reflexivity.
  - reflexivity.
  - apply (H401 401 "Unauthorized"); [reflexivity|]. by left.
Defined.

(** C7: an invocation of [poll] made while a cycle is in flight, or less
    than (poll interval - 1000 ms) after the last run, returns at once: the
    state is unchanged and no effect is issued (no header refresh, no
    replay fetch, no persistence).  Consequently, in every state the timer
    and the cycles can reach from the initial one, at most one cycle is in
    flight, and while one is, every further invocation is skipped. *)
Theorem C7_poll_skips_and_never_overlaps `{JsBuiltins} `{SqlClock}
    (cfg : Config) :
  (∀ now env w,
     Watcher.polling w = true
     ∨ now - Watcher.lastRun w < pollIntervalMs cfg - 1000 →
     Watcher.poll cfg now env w = (w, []))
  ∧ (∀ hs d s,
       Watcher.reachable cfg (Watcher.initial hs d) s →
       (Watcher.in_flight s ≤ 1)%nat
       ∧ ((0 < Watcher.in_flight s)%nat →
          ∀ now env,
            Watcher.poll cfg now env (Watcher.watch s)
            = (Watcher.watch s, []))).
Proof.
  split.
  - intros now env w Hskip. unfold Watcher.poll.
    by rewrite (poll_enter_skips cfg now w Hskip).
  - intros hs d s Hreach.
    pose proof (reachable_invariant cfg hs d s Hreach) as Hinv.
    unfold flag_tracks_flight in Hinv. rewrite Hinv.
    destruct (Watcher.polling (Watcher.watch s)) eqn:Hflag.
    + split; [lia|]. intros _ now env. unfold Watcher.poll.
      rewrite (poll_enter_skips cfg now (Watcher.watch s)); [done|by left].
    + split; lia.
Qed.

Lemma C7_poll_skips_and_never_overlaps_witness :
  Watcher.poll (H := demo_builtins) (H0 := demo_clock)
    default_config 1700000000000 cycle_unauthorized busy_watch
  = (busy_watch, [])
  ∧ Watcher.poll (H := demo_builtins) (H0 := demo_clock)
      default_config 1000 cycle_unauthorized idle_watch
    = (idle_watch, [])
  ∧ (Watcher.in_flight
       (match Watcher.poll_enter default_config 1700000000000
                (Watcher.watch (Watcher.initial demo_headers D1.empty)) with
        | None => Watcher.initial demo_headers D1.empty
        | Some w1 =>
            {| Watcher.watch := w1;
               Watcher.in_flight :=
                 S (Watcher.in_flight
                      (Watcher.initial demo_headers D1.empty)) |}
        end) ≤ 1)%nat.
Proof.
  destruct (@C7_poll_skips_and_never_overlaps demo_builtins demo_clock
              default_config) as [Hskip Hreach].
  split; [apply Hskip; by left|].
  split; [apply Hskip; right; reflexivity|].
  apply (Hreach demo_headers D1.empty).
  eapply Watcher.reach_step; [apply Watcher.reach_init|].
  apply Watcher.step_tick.
Defined.

(** ** The login sequence *)

Lemma form_wait_ok cfg env :
  (usernameSelector cfg = "" ∧ passwordSelector cfg = "" →
   form_visible env = Ok tt) →
  (if String.eqb (usernameSelector cfg) ""
      && String.eqb (passwordSelector cfg) ""
   then form_visible env else Ok tt) = Ok tt.
Proof.
  intros Hf.
  destruct (String.eqb_spec (usernameSelector cfg) "");
    destruct (String.eqb_spec (passwordSelector cfg) ""); simpl; auto.
Qed.

(** C8 fails as stated: with every other step and signal in order, a
    document-ready wait that times out aborts the settle phase and with it
    the whole login, in the monitor and in the one-time script. *)
Lemma C8_counterexample :
  Watcher.waitForPostLoginSignals login_never_ready = Throw timeout
  ∧ Watcher.ensureLogin default_config true login_never_ready = Throw timeout
  ∧ OneShot.login default_config login_never_ready = Throw timeout.
Proof. repeat split. Qed.

(** C8, amended: the waits for the navigation event, for the
    authentication-refresh response and for a post-login URL are
    tolerated, whatever their outcome; the wait for the document-ready
    state is not.  The settle phase of the monitor ends as that wait
    ends, and so does the forced login once the form has been submitted
    (in the one-time script provided the body selector appears too); the
    worker's settle phase has no such wait and always completes. *)
Theorem C8_settle_waits (cfg : Config) (env : LoginEnv) :
  Worker.waitForPostLogin env = Ok tt
  ∧ Watcher.waitForPostLoginSignals env = ready_state env
  ∧ (form_submitted cfg env →
     Watcher.ensureLogin cfg true env = ready_state env
     ∧ (body_visible env = Ok tt →
        OneShot.login cfg env = ready_state env)).
Proof.
  split; [done|]. split.
  { unfold Watcher.waitForPostLoginSignals. simpl.
    by destruct (ready_state env) as [[]|]. }
  intros (Hg & Hf & Hu & Hp & Hc). apply form_wait_ok in Hf. split.
  - unfold Watcher.ensureLogin, Watcher.waitForPostLoginSignals.
    rewrite Hg, Hf, Hu, Hp, Hc. simpl.
    by destruct (ready_state env) as [[]|].
  - intros Hb. unfold OneShot.login.
    rewrite Hg, Hf, Hu, Hp, Hc, Hb. simpl.
    by destruct (ready_state env) as [[]|].
Qed.

Lemma C8_settle_waits_witness :
  Watcher.ensureLogin default_config true login_no_signals = Ok tt
  ∧ OneShot.login default_config login_no_signals = Ok tt.
Proof.
  destruct (C8_settle_waits default_config login_no_signals)
    as (_ & _ & Hlogin).
  destruct Hlogin as [Hw Ho].
  - repeat split.
  - split; [exact Hw|]. apply Ho. reflexivity.
Defined.

(** ** Header check before the replay *)

(** The one-time script refuses a header set without [secret-key] before
    it issues any request. *)
Lemma fetchTransactionsFromPage_fails_fast `{JsBuiltins} headers s e resp :
  has_header (OneShot.whitelistedHeaders headers OneShot.headerKeys)
    "secret-key" = false →
  OneShot.fetchTransactionsFromPage headers s e resp
  = ([], Throw (Error
       "Captured headers did not include required secret fields.")).
Proof.
  intros Hk. unfold OneShot.fetchTransactionsFromPage. rewrite Hk.
  by rewrite orb_true_r.
Qed.

(** C4 does not hold of the monitor: for the captured header set
    [headers_without_key], whose filtered form lacks [secret-key], the
    one-time script throws without a request, while the refresh step of
    the monitor keeps the set (it carries the rotating token) and
    [fetchTransactions] issues the request with it. *)
Theorem C4_watcher_replays_without_secret_key :
  has_header (Watcher.filterHeaders headers_without_key) "secret-key" = false
  ∧ OneShot.fetchTransactionsFromPage (H := demo_builtins)
      headers_without_key "20251126" "20251126"
      (HttpResponse 401 "Unauthorized")
    = ([], Throw (Error
         "Captured headers did not include required secret fields."))
  ∧ Watcher.refreshHeadersIfNeeded cycle_unauthorized headers_without_key
    = ([], Ok headers_without_key)
  ∧ (Watcher.fetchTransactions (H := demo_builtins) headers_without_key
       "20251126" "20251126" (HttpResponse 401 "Unauthorized")).1
    = [EvRequest TRANSACTION_API_URL "20251126" "20251126"
         headers_without_key].
Proof. repeat split. Qed.

(** ** Date normalisation *)

Lemma normalizeDateInput_examples (fallback : string) :
  OneShot.normalizeDateInput (OneShot.ArgText "2025-11-26") fallback
  = Ok "20251126"
  ∧ OneShot.normalizeDateInput (OneShot.ArgText "20251126") fallback
    = Ok "20251126".
Proof. by split. Qed.

(** What the format test lets through: any text that is eight digits once
    every dash is removed, wherever the dashes stood. *)
Lemma normalizeDateInput_accepts (raw fallback : string) :
  raw ≠ "" →
  OneShot.is_eight_digits (OneShot.strip_dashes raw) = true →
  OneShot.normalizeDateInput (OneShot.ArgText raw) fallback
  = Ok (OneShot.strip_dashes raw).
Proof.
  intros Hne Hd. unfold OneShot.normalizeDateInput.
  destruct (String.eqb_spec raw ""); [done|]. by rewrite Hd.
Qed.

Lemma normalizeDateInput_rejects (raw fallback : string) :
  raw ≠ "" →
  OneShot.is_eight_digits (OneShot.strip_dashes raw) = false →
  OneShot.normalizeDateInput (OneShot.ArgText raw) fallback
  = Throw (Error ("Invalid date format: " +:+ raw +:+
                  " (expected YYYY-MM-DD or YYYYMMDD)")).
Proof.
  intros Hne Hd. unfold OneShot.normalizeDateInput.
  destruct (String.eqb_spec raw ""); [done|]. by rewrite Hd.
Qed.

(** C5 does not hold of the code: both well-formed inputs normalise to
    "20251126", but the wrongly grouped "25-11-2026" is not refused; it is
    returned as "25112026". *)
Theorem C5_wrong_grouping_is_accepted (fallback : string) :
  OneShot.normalizeDateInput (OneShot.ArgText "2025-11-26") fallback
  = Ok "20251126"
  ∧ OneShot.normalizeDateInput (OneShot.ArgText "20251126") fallback
    = Ok "20251126"
  ∧ OneShot.normalizeDateInput (OneShot.ArgText "25-11-2026") fallback
    = Ok "25112026".
Proof. repeat split. Qed.

(** ** The list endpoint *)

Lemma effective_limit_default :
  Worker.effective_limit None = Num 10
  ∧ Worker.effective_limit (Some "") = Num 10.
Proof. by split. Qed.

Lemma effective_limit_is_min (p : option string) (n : Z) :
  Worker.parseInt (Worker.param_or p "10") = Num n →
  Worker.effective_limit p = Num (Z.min n 100).
Proof. unfold Worker.effective_limit. by intros ->. Qed.

(** [parseInt] skips leading white space, reads a sign and a hexadecimal
    prefix, stops at the first character that is not a digit, and yields
    the nearest double. *)
Lemma parseInt_examples :
  Worker.parseInt "  42px" = Num 42
  ∧ Worker.parseInt (String (ascii_of_nat 160) "7") = Num 7
  ∧ Worker.parseInt "-0x1F" = Num (-31)
  ∧ Worker.parseInt "9007199254740993" = Num 9007199254740992
  ∧ Worker.parseInt "9007199254740995" = Num 9007199254740996
  ∧ Worker.parseInt "abc" = NaN
  ∧ Worker.parseInt "-" = NaN.
Proof. by vm_compute. Qed.

(** Integers of magnitude below 2^53 are doubles. *)
Lemma to_double_exact (z : Z) :
  Z.abs z < 2 ^ 53 → Worker.to_double z = Num z.
Proof.
  intros Hz. unfold Worker.to_double.
  by destruct (Z.ltb_spec (Z.abs z) (2 ^ 53)); [|lia].
Qed.

(** The effective limit never exceeds 100. *)
Lemma effective_limit_le_100 (p : option string) (l : Z) :
  Worker.effective_limit p = Num l → l ≤ 100.
Proof.
  unfold Worker.effective_limit.
  destruct (Worker.parseInt _) as [|n|[]]; simpl; intros [= <-]; lia.
Qed.

(** A limit that is not negative caps the response at 100 rows. *)
Lemma list_capped_when_limit_not_negative {A : Type}
    (limitParam offsetParam : option string) (matching : list A) (l : Z) :
  Worker.effective_limit limitParam = Num l → 0 ≤ l →
  (List.length
     (Worker.transactions
        (Worker.handleListTransactions limitParam offsetParam matching))
   ≤ 100)%nat.
Proof.
  intros El Hl. unfold Worker.handleListTransactions. rewrite El.
  pose proof (effective_limit_le_100 _ _ El) as Hle.
  unfold Worker.sql_limit_offset.
  destruct (Worker.effective_offset offsetParam) as [|o|b]; simpl;
    [lia| |lia].
  destruct (Z.ltb_spec l 0); [lia|]. simpl.
  rewrite length_take. lia.
Qed.

(** C10 does not hold of the code: for [limit=-1] the effective limit is
    min(-1, 100) = -1, which the store reads as no limit; with 101
    matching rows the response carries all 101. *)
Theorem C10_negative_limit_is_unbounded :
  Worker.effective_limit (Some "-1") = Num (-1)
  ∧ Worker.transactions
      (Worker.handleListTransactions (Some "-1") None (seq 0 101))
    = seq 0 101
  ∧ Worker.count
      (Worker.handleListTransactions (Some "-1") None (seq 0 101))
    = 101%nat.
Proof. by vm_compute. Qed.

(** ** Further properties of the code *)

Lemma string_length_app (a b : string) :
  String.length (a +:+ b) = (String.length a + String.length b)%nat.
Proof. induction a as [|c a IH]; simpl; [done|by rewrite IH]. Qed.

Lemma string_forallb_app (f : ascii → bool) (a b : string) :
  string_forallb f (a +:+ b) = string_forallb f a && string_forallb f b.
Proof.
  induction a as [|c a IH]; simpl; [done|]. by rewrite IH, andb_assoc.
Qed.

Lemma string_filter_app (f : ascii → bool) (a b : string) :
  string_filter f (a +:+ b) = string_filter f a +:+ string_filter f b.
Proof.
  induction a as [|c a IH]; simpl; [done|]. rewrite IH. by destruct (f c).
Qed.

Lemma digit_is_no_dash (c : ascii) :
  is_digit c = true → negb (Ascii.eqb c "-"%char) = true.
Proof. destruct c as [[] [] [] [] [] [] [] []]; by vm_compute. Qed.

Lemma strip_dashes_digits (s : string) :
  string_forallb is_digit s = true → OneShot.strip_dashes s = s.
Proof.
  unfold OneShot.strip_dashes. induction s as [|c s IH]; simpl; [done|].
  intros [Hc Hs]%andb_true_iff. rewrite (digit_is_no_dash c Hc).
  by rewrite IH.
Qed.

Lemma eight_digits_nonempty (s : string) :
  OneShot.is_eight_digits s = true → s ≠ "".
Proof. by intros H ->. Qed.

Lemma normalizeDateInput_digits (s fallback : string) :
  OneShot.is_eight_digits s = true →
  OneShot.normalizeDateInput (OneShot.ArgText s) fallback = Ok s.
Proof.
  intros Hd. pose proof (eight_digits_nonempty s Hd) as Hne.
  unfold OneShot.normalizeDateInput.
  destruct (String.eqb_spec s ""); [done|].
  apply andb_true_iff in Hd as Hd'. destruct Hd' as [_ Hall].
  rewrite (strip_dashes_digits s Hall). by rewrite Hd.
Qed.

(** X1: whenever the date normalisation accepts a non-empty text, what it
    returns is the text with its dashes removed, is exactly eight
    decimal digits, and is returned unchanged when normalised again. *)
Theorem normalizeDateInput_output_is_canonical
    (raw fallback fallback' out : string) :
  raw ≠ "" →
  OneShot.normalizeDateInput (OneShot.ArgText raw) fallback = Ok out →
  out = OneShot.strip_dashes raw
  ∧ String.length out = 8%nat
  ∧ string_forallb is_digit out = true
  ∧ OneShot.normalizeDateInput (OneShot.ArgText out) fallback' = Ok out.
Proof.
  intros Hne. unfold OneShot.normalizeDateInput at 1.
  destruct (String.eqb_spec raw ""); [done|].
  destruct (OneShot.is_eight_digits (OneShot.strip_dashes raw)) eqn:Hd;
    [|done].
  intros [= <-]. split; [done|].
  apply andb_true_iff in Hd as Hd'. destruct Hd' as [Hlen Hall].
  split; [by apply Nat.eqb_eq|]. split; [done|].
  by apply normalizeDateInput_digits.
Qed.

Lemma normalizeDateInput_output_is_canonical_witness :
  String.length "20251126" = 8%nat
  ∧ OneShot.normalizeDateInput (OneShot.ArgText "20251126") "19700101"
    = Ok "20251126".
Proof.
  destruct (normalizeDateInput_output_is_canonical
              "2025-11-26" "20000101" "19700101" "20251126")
    as (_ & Hlen & _ & Hagain).
  - done.
  - reflexivity.
  - split; [exact Hlen|exact Hagain].
Defined.

(** X2: a date written as four, two and two digits joined by dashes, or as
    the same eight digits without dashes, normalises to those eight
    digits. *)
Theorem normalizeDateInput_dashed (y m d fallback : string) :
  String.length y = 4%nat → String.length m = 2%nat →
  String.length d = 2%nat →
  string_forallb is_digit y = true → string_forallb is_digit m = true →
  string_forallb is_digit d = true →
  OneShot.normalizeDateInput
    (OneShot.ArgText (y +:+ "-" +:+ m +:+ "-" +:+ d)) fallback
  = Ok (y +:+ m +:+ d)
  ∧ OneShot.normalizeDateInput (OneShot.ArgText (y +:+ m +:+ d)) fallback
    = Ok (y +:+ m +:+ d).
Proof.
  intros Ly Lm Ld Dy Dm Dd.
  assert (Hout : OneShot.is_eight_digits (y +:+ m +:+ d) = true).
  { unfold OneShot.is_eight_digits.
    rewrite !string_length_app, !string_forallb_app, Ly, Lm, Ld, Dy, Dm, Dd.
    done. }
  split; [|by apply normalizeDateInput_digits].
  assert (Hs : OneShot.strip_dashes (y +:+ "-" +:+ m +:+ "-" +:+ d)
               = y +:+ m +:+ d).
  { unfold OneShot.strip_dashes. rewrite !string_filter_app.
    fold (OneShot.strip_dashes y) (OneShot.strip_dashes m)
         (OneShot.strip_dashes d).
    rewrite (strip_dashes_digits y), (strip_dashes_digits m),
      (strip_dashes_digits d) by done.
    done. }
  unfold OneShot.normalizeDateInput.
  destruct (String.eqb_spec (y +:+ "-" +:+ m +:+ "-" +:+ d) "") as [E|_].
  { destruct y; [done|discriminate E]. }
  by rewrite Hs, Hout.
Qed.

Lemma normalizeDateInput_dashed_witness :
  OneShot.normalizeDateInput (OneShot.ArgText "2025-11-26") "19700101"
  = Ok "20251126".
Proof.
  destruct (normalizeDateInput_dashed "2025" "11" "26" "19700101")
    as [Hdashed _]; [reflexivity..|].
  exact Hdashed.
Defined.

Lemma range_check (f : Z → bool) (lo : Z) (n : nat) :
  forallb (fun i => f (lo + Z.of_nat i)) (seq 0 n) = true →
  ∀ z, lo ≤ z < lo + Z.of_nat n → f z = true.
Proof.
  intros Hall z Hz. rewrite forallb_forall in Hall.
  specialize (Hall (Z.to_nat (z - lo))).
  replace (lo + Z.of_nat (Z.to_nat (z - lo))) with z in Hall by lia.
  apply Hall. apply in_seq. lia.
Qed.

Lemma years_ok (y : Z) : 1000 ≤ y ≤ 9999 → year_ok y = true.
Proof.
  intros Hy. apply (range_check year_ok 1000 (Z.to_nat 9000)); [|lia].
  by vm_compute.
Qed.

Lemma days_ok (n : Z) : 1 ≤ n ≤ 31 → two_ok n = true.
Proof.
  intros Hn. apply (range_check two_ok 1 (Z.to_nat 31)); [|lia].
  by vm_compute.
Qed.

(** X3: for a date with a four-digit year, [formatDate] yields eight digits
    that the date normalisation returns unchanged, both as an input and
    as the fallback; the ranges computed by [todayRange] and
    [getTodayRange] start and end on that same text. *)
Theorem formatDate_is_canonical (now : OneShot.Date) (fallback : string) :
  1000 ≤ OneShot.getFullYear now ≤ 9999 →
  0 ≤ OneShot.getMonth now ≤ 11 →
  1 ≤ OneShot.getDate now ≤ 31 →
  let formatted := OneShot.formatDate now in
  String.length formatted = 8%nat
  ∧ string_forallb is_digit formatted = true
  ∧ OneShot.normalizeDateInput (OneShot.ArgText formatted) fallback
    = Ok formatted
  ∧ OneShot.normalizeDateInput OneShot.ArgAbsent formatted = Ok formatted
  ∧ Watcher.todayRange now = (formatted, formatted)
  ∧ Worker.getTodayRange now = (formatted, formatted).
Proof.
  intros Hy Hm Hd formatted.
  pose proof (years_ok _ Hy) as [Ly Dy]%andb_true_iff.
  assert (1 ≤ OneShot.getMonth now + 1 ≤ 31) as Hm1 by lia.
  pose proof (days_ok _ Hm1) as [Lm Dm]%andb_true_iff.
  pose proof (days_ok _ Hd) as [Ld Dd]%andb_true_iff.
  apply Nat.eqb_eq in Ly, Lm, Ld.
  assert (Hlen : String.length formatted = 8%nat).
  { unfold formatted, OneShot.formatDate.
    by rewrite !string_length_app, Ly, Lm, Ld. }
  assert (Hdig : string_forallb is_digit formatted = true).
  { unfold formatted, OneShot.formatDate.
    by rewrite !string_forallb_app, Dy, Dm, Dd. }
  split; [done|]. split; [done|]. split; [|done].
  apply normalizeDateInput_digits. unfold OneShot.is_eight_digits.
  by rewrite Hlen, Hdig.
Qed.

Lemma formatDate_is_canonical_witness :
  OneShot.formatDate (OneShot.mkDate 2025 10 26) = "20251126"
  ∧ OneShot.normalizeDateInput
      (OneShot.ArgText (OneShot.formatDate (OneShot.mkDate 2025 10 26)))
      "19700101"
    = Ok (OneShot.formatDate (OneShot.mkDate 2025 10 26)).
Proof.
  destruct (formatDate_is_canonical (OneShot.mkDate 2025 10 26) "19700101")
    as (_ & _ & Hnorm & _); simpl; try lia.
  split; [reflexivity|exact Hnorm].
Defined.

Lemma cut_at_equals_plain (a : string) :
  no_equals a = true → OneShot.cut_at_equals a = (a, None).
Proof.
  unfold no_equals. induction a as [|c a IH]; simpl; [done|].
  intros [Hc Ha]%andb_true_iff. apply negb_true_iff in Hc. rewrite Hc.
  by rewrite IH.
Qed.

Lemma cut_at_equals_app (a b : string) :
  no_equals a = true →
  OneShot.cut_at_equals (a +:+ "=" +:+ b) = (a, Some b).
Proof.
  unfold no_equals. induction a as [|c a IH]; simpl; [done|].
  intros [Hc Ha]%andb_true_iff. apply negb_true_iff in Hc. rewrite Hc.
  by rewrite IH.
Qed.

Lemma split_long_option (k v : string) :
  no_equals k = true → no_equals v = true →
  OneShot.split_equals_2 ("--" +:+ k +:+ "=" +:+ v) = ("--" +:+ k, Some v).
Proof.
  intros Hk Hv. unfold OneShot.split_equals_2.
  change ("--" +:+ k +:+ "=" +:+ v) with (("--" +:+ k) +:+ "=" +:+ v).
  rewrite (cut_at_equals_app ("--" +:+ k) v) by done. simpl.
  by rewrite (cut_at_equals_plain v Hv).
Qed.

Lemma split_bare_option (k : string) :
  no_equals k = true →
  OneShot.split_equals_2 ("--" +:+ k) = ("--" +:+ k, None).
Proof.
  intros Hk. unfold OneShot.split_equals_2.
  by rewrite (cut_at_equals_plain ("--" +:+ k)).
Qed.

(** The two spellings, read from the same state with nothing in front. *)
Lemma parse_from_spellings_here args k v post :
  no_equals k = true → no_equals v = true → OneShot.is_value v = true →
  OneShot.parse_from args (("--" +:+ k +:+ "=" +:+ v) :: post)
  = OneShot.parse_from args (("--" +:+ k) :: v :: post).
Proof.
  intros Hk Hv Hval. cbn [OneShot.parse_from].
  change (startsWith ("--" +:+ k +:+ "=" +:+ v) "-") with true.
  change (startsWith ("--" +:+ k +:+ "=" +:+ v) "--") with true.
  change (startsWith ("--" +:+ k) "-") with true.
  change (startsWith ("--" +:+ k) "--") with true.
  cbn [negb]. rewrite split_long_option, split_bare_option by done.
  by rewrite Hval.
Qed.

Lemma parse_from_spellings n : ∀ pre args k v post,
  (List.length pre ≤ n)%nat →
  no_equals k = true → no_equals v = true → OneShot.is_value v = true →
  OneShot.parse_from args (pre ++ ("--" +:+ k +:+ "=" +:+ v) :: post)
  = OneShot.parse_from args (pre ++ ("--" +:+ k) :: v :: post).
Proof.
  induction n as [|n IH]; intros pre args k v post Hlen Hk Hv Hval.
  { destruct pre; [|simpl in Hlen; lia].
    by apply parse_from_spellings_here. }
  destruct pre as [|token pre]; [by apply parse_from_spellings_here|].
  simpl in Hlen.
  assert (Hrec : ∀ args',
    OneShot.parse_from args' (pre ++ ("--" +:+ k +:+ "=" +:+ v) :: post)
    = OneShot.parse_from args' (pre ++ ("--" +:+ k) :: v :: post)).
  { intros args'. apply IH; [lia|done..]. }
  assert (Hopt : ∀ key,
    match pre ++ ("--" +:+ k +:+ "=" +:+ v) :: post with
    | next :: rest' =>
        if OneShot.is_value next
        then OneShot.parse_from (OneShot.set_arg key (OneShot.AVText next) args)
               rest'
        else OneShot.parse_from (OneShot.set_arg key OneShot.AVTrue args)
               (pre ++ ("--" +:+ k +:+ "=" +:+ v) :: post)
    | [] => OneShot.parse_from (OneShot.set_arg key OneShot.AVTrue args)
              (pre ++ ("--" +:+ k +:+ "=" +:+ v) :: post)
    end
    = match pre ++ ("--" +:+ k) :: v :: post with
      | next :: rest' =>
          if OneShot.is_value next
          then OneShot.parse_from
                 (OneShot.set_arg key (OneShot.AVText next) args) rest'
          else OneShot.parse_from (OneShot.set_arg key OneShot.AVTrue args)
                 (pre ++ ("--" +:+ k) :: v :: post)
      | [] => OneShot.parse_from (OneShot.set_arg key OneShot.AVTrue args)
                (pre ++ ("--" +:+ k) :: v :: post)
      end).
  { intros key. destruct pre as [|next pre'].
    - cbn [app]. change (OneShot.is_value ("--" +:+ k +:+ "=" +:+ v)) with false.
      change (OneShot.is_value ("--" +:+ k)) with false. cbn iota.
      apply (Hrec _).
    - cbn [app]. destruct (OneShot.is_value next).
      + apply IH; [simpl in Hlen; lia|done..].
      + apply (Hrec _). }
  rewrite <- !app_comm_cons. cbn [OneShot.parse_from].
  destruct (negb (startsWith token "-")).
  { destruct (args !! "_") as [[|s|items]|]; try done; try apply Hrec.
    destruct (String.eqb s ""); [apply Hrec|done]. }
  destruct (startsWith token "--").
  - destruct (OneShot.split_equals_2 token) as [key [v'|]]; [apply Hrec|].
    apply Hopt.
  - apply Hopt.
Qed.

(** X4: the argument parser reads [--key=value] and [--key value] alike,
    whatever precedes and follows them, as long as key and value hold no
    "=" and the value is non-empty and does not start with a dash. *)
Theorem parseArgs_option_spellings_agree
    (node script k v : string) (pre post : list string) :
  no_equals k = true → no_equals v = true → OneShot.is_value v = true →
  OneShot.parseArgs
    (node :: script :: pre ++ ("--" +:+ k +:+ "=" +:+ v) :: post)
  = OneShot.parseArgs (node :: script :: pre ++ ("--" +:+ k) :: v :: post).
Proof.
  intros Hk Hv Hval. unfold OneShot.parseArgs. cbn [drop].
  by apply (parse_from_spellings (List.length pre)).
Qed.

Lemma parseArgs_option_spellings_agree_witness :
  OneShot.parseArgs
    ["node"; "fetch.js"; "--headless"; "--start-date=2025-11-26";
     "-o"; "out.json"]
  = OneShot.parseArgs
      ["node"; "fetch.js"; "--headless"; "--start-date"; "2025-11-26";
       "-o"; "out.json"].
Proof.
  apply (parseArgs_option_spellings_agree "node" "fetch.js"
           "start-date" "2025-11-26" ["--headless"] ["-o"; "out.json"]);
    reflexivity.
Defined.

(** ** Association lists *)

Lemma assoc_Some_elem {A : Type} (k : string) (v : A) ps :
  assoc k ps = Some v → (k, v) ∈ ps.
Proof.
  induction ps as [|[k' v'] ps IH]; simpl; [done|].
  destruct (String.eqb_spec k k') as [->|Hne].
  - intros [= ->]. apply list_elem_of_here.
  - intros H. apply list_elem_of_further. by apply IH.
Qed.

Lemma assoc_None_keys {A : Type} (k : string) (ps : list (string * A)) :
  assoc k ps = None ↔ k ∉ ps.*1.
Proof.
  induction ps as [|[k' v'] ps IH]; simpl.
  - split; [intros _; apply not_elem_of_nil|done].
  - destruct (String.eqb_spec k k') as [->|Hne].
    + split; [done|]. intros H. exfalso. apply H. apply list_elem_of_here.
    + rewrite IH, not_elem_of_cons. naive_solver.
Qed.

Lemma assoc_set_fresh {A : Type} (k : string) (v : A) ps :
  k ∉ ps.*1 → assoc_set k v ps = ps ++ [(k, v)].
Proof.
  induction ps as [|[k' v'] ps IH]; simpl; [done|].
  intros [Hne Hnin]%not_elem_of_cons.
  destruct (String.eqb_spec k k'); [done|]. by rewrite IH.
Qed.

Lemma assoc_set_keys {A : Type} (k : string) (v : A) ps :
  ∀ k', k' ∈ (assoc_set k v ps).*1 ↔ k' = k ∨ k' ∈ ps.*1.
Proof.
  induction ps as [|[k0 v0] ps IH]; intros k'; simpl.
  - rewrite list_elem_of_singleton. rewrite elem_of_nil. tauto.
  - destruct (String.eqb_spec k k0) as [->|Hne]; simpl.
    + rewrite !elem_of_cons. tauto.
    + rewrite !elem_of_cons, IH. tauto.
Qed.

Lemma assoc_set_NoDup {A : Type} (k : string) (v : A) ps :
  NoDup ps.*1 → NoDup (assoc_set k v ps).*1.
Proof.
  induction ps as [|[k0 v0] ps IH]; simpl.
  - intros _. apply NoDup_singleton.
  - intros [Hnin Hnd]%NoDup_cons.
    destruct (String.eqb_spec k k0) as [->|Hne]; simpl.
    + by apply NoDup_cons.
    + apply NoDup_cons. split; [|by apply IH].
      rewrite assoc_set_keys. naive_solver.
Qed.

Lemma assoc_assoc_set {A : Type} (k k' : string) (v : A) ps :
  assoc k' (assoc_set k v ps)
  = if String.eqb k' k then Some v else assoc k' ps.
Proof.
  induction ps as [|[k0 v0] ps IH]; simpl.
  - by destruct (String.eqb k' k).
  - destruct (String.eqb_spec k k0) as [->|Hne]; simpl.
    + by destruct (String.eqb k' k0).
    + destruct (String.eqb_spec k' k0) as [->|Hne'].
      * destruct (String.eqb_spec k0 k); [by subst|done].
      * apply IH.
Qed.

(** ** whitelistedHeaders *)

Lemma whitelistedHeaders_lookup (headerMap : Headers) (keys : list string)
    (k : string) :
  assoc k (OneShot.whitelistedHeaders headerMap keys)
  = if bool_decide (k ∈ keys) && has_header headerMap k
    then assoc k headerMap else None.
Proof.
  induction keys as [|key keys IH]; [done|].
  cbn [OneShot.whitelistedHeaders].
  assert (Hstep : (if bool_decide (k ∈ key :: keys) && has_header headerMap k
                   then assoc k headerMap else None)
                  = if String.eqb k key && has_header headerMap k
                    then assoc k headerMap
                    else if bool_decide (k ∈ keys) && has_header headerMap k
                         then assoc k headerMap else None).
  { destruct (String.eqb_spec k key) as [->|Hne].
    - rewrite bool_decide_eq_true_2 by apply list_elem_of_here. simpl.
      destruct (has_header headerMap key); [done|].
      by rewrite andb_false_r.
    - simpl. destruct (decide (k ∈ keys)).
      + rewrite !bool_decide_eq_true_2; [done..|]. by apply list_elem_of_further.
      + rewrite !bool_decide_eq_false_2; [done..|].
        rewrite not_elem_of_cons. done. }
  rewrite Hstep. clear Hstep. unfold has_header at 1.
  destruct (assoc key headerMap) as [v|] eqn:Ek.
  - destruct (negb (String.eqb v "")) eqn:Hv; simpl.
    + destruct (String.eqb_spec k key) as [->|Hne]; [|apply IH].
      unfold has_header. by rewrite Ek, Hv.
    + rewrite IH. destruct (String.eqb_spec k key) as [->|Hne]; [|done].
      unfold has_header. rewrite Ek, Hv. simpl.
      by rewrite andb_false_r.
  - rewrite IH. destruct (String.eqb_spec k key) as [->|Hne]; [|done].
    unfold has_header. rewrite Ek. simpl. by rewrite andb_false_r.
Qed.

Lemma whitelistedHeaders_has (headerMap : Headers) (keys : list string)
    (k : string) :
  has_header (OneShot.whitelistedHeaders headerMap keys) k
  = bool_decide (k ∈ keys) && has_header headerMap k.
Proof.
  unfold has_header at 1. rewrite whitelistedHeaders_lookup.
  destruct (bool_decide (k ∈ keys)); [|done]. simpl.
  unfold has_header. destruct (assoc k headerMap) as [v|] eqn:E; [|done].
  by destruct (negb (String.eqb v "")) eqn:Hv.
Qed.

Lemma whitelistedHeaders_entries (headerMap : Headers) (keys : list string) :
  ∀ k v, (k, v) ∈ OneShot.whitelistedHeaders headerMap keys →
         k ∈ keys ∧ assoc k headerMap = Some v ∧ v ≠ "".
Proof.
  induction keys as [|key keys IH]; intros k v; cbn [OneShot.whitelistedHeaders].
  - by intros ?%elem_of_nil.
  - destruct (assoc key headerMap) as [v0|] eqn:Ek.
    + destruct (String.eqb_spec v0 "") as [->|Hne]; simpl.
      * intros H. destruct (IH _ _ H) as (? & ? & ?).
        split; [by apply list_elem_of_further|done].
      * intros [[= -> ->]|H]%elem_of_cons.
        -- split; [apply list_elem_of_here|done].
        -- destruct (IH _ _ H) as (? & ? & ?).
           split; [by apply list_elem_of_further|done].
    + intros H. destruct (IH _ _ H) as (? & ? & ?).
      split; [by apply list_elem_of_further|done].
Qed.

Lemma whitelistedHeaders_again (headerMap : Headers) (keys0 keys : list string) :
  keys ⊆ keys0 →
  OneShot.whitelistedHeaders (OneShot.whitelistedHeaders headerMap keys0) keys
  = OneShot.whitelistedHeaders headerMap keys.
Proof.
  induction keys as [|key keys IH]; intros Hsub; [done|].
  cbn [OneShot.whitelistedHeaders].
  rewrite IH by set_solver.
  rewrite whitelistedHeaders_lookup.
  rewrite bool_decide_eq_true_2 by set_solver. simpl.
  unfold has_header. destruct (assoc key headerMap) as [v|]; [|done].
  destruct (negb (String.eqb v "")) eqn:Hv; [|done]. by rewrite Hv.
Qed.

(** X5: [whitelistedHeaders] keeps a header exactly when its name is listed
    and its value is non-empty, with the value unchanged; nothing else
    gets through, and filtering a second time changes nothing. *)
Theorem whitelistedHeaders_passes_only_listed_secrets
    (headerMap : Headers) (keys : list string) :
  (∀ k, assoc k (OneShot.whitelistedHeaders headerMap keys)
        = if bool_decide (k ∈ keys) && has_header headerMap k
          then assoc k headerMap else None)
  ∧ (∀ k v, (k, v) ∈ OneShot.whitelistedHeaders headerMap keys →
            k ∈ keys ∧ assoc k headerMap = Some v ∧ v ≠ "")
  ∧ OneShot.whitelistedHeaders (OneShot.whitelistedHeaders headerMap keys) keys
    = OneShot.whitelistedHeaders headerMap keys.
Proof.
  split; [apply whitelistedHeaders_lookup|].
  split; [apply whitelistedHeaders_entries|].
  by apply whitelistedHeaders_again.
Qed.

Lemma whitelistedHeaders_passes_only_listed_secrets_witness :
  assoc "user-agent"
    (OneShot.whitelistedHeaders browser_headers OneShot.headerKeys) = None
  ∧ assoc "secret-key"
      (OneShot.whitelistedHeaders browser_headers OneShot.headerKeys)
    = Some "key-1".
Proof.
  destruct (whitelistedHeaders_passes_only_listed_secrets
              browser_headers OneShot.headerKeys) as (Hlookup & _ & _).
  split; rewrite Hlookup; reflexivity.
Defined.

(** X6: the one-time replay issues no request and throws when [secret-id] or
    [secret-key] is absent or empty in the captured set; otherwise it
    issues exactly one request, carrying only listed non-empty headers.
    A 2xx answer yields the parsed body, or the SyntaxError of the parser
    when the body is not JSON; any other answer is thrown with its status
    and at most 200 characters of the body; a fetch that rejects is
    thrown as it is. *)
Theorem fetchTransactionsFromPage_requests_iff_secrets `{JsBuiltins}
    (headers : Headers) (startDate endDate : string) (resp : Response) :
  let out := OneShot.fetchTransactionsFromPage headers startDate endDate resp in
  (has_header headers "secret-id" && has_header headers "secret-key" = false →
   out = ([], Throw (Error
            "Captured headers did not include required secret fields.")))
  ∧ (has_header headers "secret-id" && has_header headers "secret-key" = true →
     out.1 = [EvRequest TRANSACTION_API_URL startDate endDate
                (OneShot.whitelistedHeaders headers OneShot.headerKeys)]
     ∧ (∀ k v, (k, v) ∈ OneShot.whitelistedHeaders headers OneShot.headerKeys →
               k ∈ OneShot.headerKeys ∧ assoc k headers = Some v ∧ v ≠ "")
     ∧ (∀ status text payload,
          resp = HttpResponse status text → response_ok status = true →
          JSON_parse text = Some payload → out.2 = Ok payload)
     ∧ (∀ status text,
          resp = HttpResponse status text → response_ok status = true →
          JSON_parse text = None →
          out.2 = Throw (Error (JSON_error_message text)))
     ∧ (∀ status text,
          resp = HttpResponse status text → response_ok status = false →
          out.2 = Throw (Error ("Transaction API returned " +:+
                                pretty status +:+ ": " +:+
                                String.substring 0 200 text)))
     ∧ (∀ msg, resp = FetchRejected msg → out.2 = Throw (Error msg))).
Proof.
  intros out. subst out. unfold OneShot.fetchTransactionsFromPage.
  rewrite !whitelistedHeaders_has.
  rewrite !bool_decide_eq_true_2 by (unfold OneShot.headerKeys; set_solver).
  cbn [andb]. split.
  - intros Hmiss.
    destruct (has_header headers "secret-id"),
             (has_header headers "secret-key"); done.
  - intros Hboth. apply andb_true_iff in Hboth as [-> ->].
    cbn [negb orb fst snd].
    split; [done|]. split; [apply whitelistedHeaders_entries|].
    split; [|split; [|split]].
    + intros status text payload -> Hok Hp. by rewrite Hok, Hp.
    + intros status text -> Hok Hp. by rewrite Hok, Hp.
    + intros status text -> Hok. by rewrite Hok.
    + by intros msg ->.
Qed.

Lemma fetchTransactionsFromPage_requests_iff_secrets_witness :
  (OneShot.fetchTransactionsFromPage (H := demo_builtins) demo_headers
     "20251126" "20251126" (HttpResponse 200 "<html>")).2
  = Throw (Error "Unexpected token < in JSON at position 0").
Proof.
  destruct (@fetchTransactionsFromPage_requests_iff_secrets demo_builtins
              demo_headers "20251126" "20251126" (HttpResponse 200 "<html>"))
    as [_ Hboth].
  destruct (Hboth eq_refl) as (_ & _ & _ & Hbad & _).
  apply (Hbad 200 "<html>"); reflexivity.
Defined.

Lemma assoc_app {A : Type} (k : string) (l1 l2 : list (string * A)) :
  assoc k (l1 ++ l2)
  = match assoc k l1 with Some v => Some v | None => assoc k l2 end.
Proof.
  induction l1 as [|[k0 v0] l1 IH]; simpl; [done|].
  by destruct (String.eqb k k0).
Qed.

Lemma allowed_lowercase (k : string) :
  k ∈ Watcher.allowed → toLowerCase k = k.
Proof.
  unfold Watcher.allowed. rewrite !elem_of_cons, elem_of_nil.
  intros [->|[->|[->|[->|[->|[->|[->|[]]]]]]]]; done.
Qed.


Lemma filterHeaders_from_keys filtered entries :
  NoDup filtered.*1 → (∀ k, k ∈ filtered.*1 → k ∈ Watcher.allowed) →
  NoDup (Watcher.filterHeaders_from filtered entries).*1
  ∧ ∀ k, k ∈ (Watcher.filterHeaders_from filtered entries).*1 →
         k ∈ Watcher.allowed.
Proof.
  revert filtered. induction entries as [|[key value] rest IH];
    intros filtered Hnd Hall; [done|].
  cbn [Watcher.filterHeaders_from].
  destruct (bool_decide (toLowerCase key ∈ Watcher.allowed)) eqn:Ha;
    [|by apply IH].
  apply bool_decide_eq_true in Ha. apply IH.
  - by apply assoc_set_NoDup.
  - intros k [->|Hk]%assoc_set_keys; [done|by apply Hall].
Qed.

Lemma filterHeaders_from_lookup filtered entries k :
  assoc k (Watcher.filterHeaders_from filtered entries)
  = match assoc k (rev (lowered entries)) with
    | Some v => if bool_decide (k ∈ Watcher.allowed) then Some v
                else assoc k filtered
    | None => assoc k filtered
    end.
Proof.
  revert filtered. induction entries as [|[key value] rest IH];
    intros filtered; [done|].
  cbn [Watcher.filterHeaders_from]. unfold lowered. rewrite fmap_cons.
  fold (lowered rest). cbn [rev]. rewrite assoc_app. simpl.
  destruct (bool_decide (toLowerCase key ∈ Watcher.allowed)) eqn:Ha.
  - rewrite IH, assoc_assoc_set.
    destruct (String.eqb_spec k (toLowerCase key)) as [->|Hne].
    + rewrite Ha. by destruct (assoc _ (rev (lowered rest))).
    + by destruct (assoc k (rev (lowered rest))).
  - rewrite IH.
    destruct (String.eqb_spec k (toLowerCase key)) as [->|Hne].
    + rewrite Ha. by destruct (assoc _ (rev (lowered rest))).
    + by destruct (assoc k (rev (lowered rest))).
Qed.

Lemma filterHeaders_from_plain filtered entries :
  (∀ k, k ∈ entries.*1 → toLowerCase k = k) →
  NoDup (filtered.*1 ++ entries.*1) →
  Watcher.filterHeaders_from filtered entries
  = filtered
    ++ List.filter (fun kv => bool_decide (kv.1 ∈ Watcher.allowed)) entries.
Proof.
  revert filtered. induction entries as [|[key value] rest IH];
    intros filtered Hlow Hnd.
  { simpl. by rewrite app_nil_r. }
  cbn [Watcher.filterHeaders_from List.filter fst].
  rewrite (Hlow key) by (rewrite fmap_cons; apply list_elem_of_here).
  assert (Hlow' : ∀ k, k ∈ rest.*1 → toLowerCase k = k).
  { intros k Hk. apply Hlow. rewrite fmap_cons. by apply list_elem_of_further. }
  rewrite fmap_cons in Hnd. simpl in Hnd.
  apply NoDup_app in Hnd as (Hf & Hdisj & [Hk Hr]%NoDup_cons).
  assert (Hfresh : key ∉ filtered.*1).
  { intros Hin. apply (Hdisj key Hin). apply list_elem_of_here. }
  destruct (bool_decide (key ∈ Watcher.allowed)).
  - rewrite IH; [|done|].
    + rewrite assoc_set_fresh by done. by rewrite <- app_assoc.
    + rewrite assoc_set_fresh by done. rewrite fmap_app. simpl.
      rewrite <- app_assoc. simpl. apply NoDup_app. split; [done|].
      split; [|by apply NoDup_cons].
      intros k Hin [->|Hin']%elem_of_cons; [done|].
      apply (Hdisj k Hin). by apply list_elem_of_further.
  - apply IH; [done|]. apply NoDup_app. split; [done|]. split; [|done].
    intros k Hin Hin'. apply (Hdisj k Hin). by apply list_elem_of_further.
Qed.


Lemma filter_all {A : Type} (f : A → bool) (l : list A) :
  (∀ x, x ∈ l → f x = true) → List.filter f l = l.
Proof.
  induction l as [|x l IH]; intros Hall; [done|]. simpl.
  rewrite (Hall x) by apply list_elem_of_here. f_equal. apply IH.
  intros y Hy. apply Hall. by apply list_elem_of_further.
Qed.

(** X7: the monitor's header filter returns pairwise-distinct, allowed,
    lower-case names; the value kept under a name is that of the last
    captured header with this name in any letter case; filtering the
    result again changes nothing. *)
Theorem filterHeaders_normalises (headers : Headers) :
  let out := Watcher.filterHeaders headers in
  NoDup out.*1
  ∧ (∀ k, k ∈ out.*1 → k ∈ Watcher.allowed)
  ∧ (∀ k, assoc k out
          = if bool_decide (k ∈ Watcher.allowed)
            then assoc k (rev (lowered headers)) else None)
  ∧ Watcher.filterHeaders out = out.
Proof.
  intros out. subst out. unfold Watcher.filterHeaders.
  destruct (filterHeaders_from_keys [] headers) as [Hnd Hall];
    [constructor|by intros k ?%elem_of_nil|].
  split; [done|]. split; [done|]. split.
  - intros k. rewrite filterHeaders_from_lookup. simpl.
    destruct (assoc k (rev (lowered headers))); [done|].
    by destruct (bool_decide _).
  - rewrite filterHeaders_from_plain.
    + simpl. apply filter_all. intros [k v] Hin. apply bool_decide_eq_true.
      apply Hall. apply list_elem_of_fmap. by exists (k, v).
    + intros k Hk. apply allowed_lowercase. by apply Hall.
    + done.
Qed.

Lemma filterHeaders_normalises_witness :
  assoc "accept"
    (Watcher.filterHeaders
       [("Accept", "text/html"); ("X-Trace", "1"); ("accept", "*/*")])
  = Some "*/*".
Proof.
  destruct (filterHeaders_normalises
              [("Accept", "text/html"); ("X-Trace", "1"); ("accept", "*/*")])
    as (_ & _ & Hlookup & _).
  rewrite Hlookup. reflexivity.
Defined.

(** X8: on headers with lower-case, pairwise-distinct names, as the browser
    reports them, the monitor's filter just drops the names that are not
    allowed and keeps the others in their order. *)
Theorem filterHeaders_on_browser_headers (headers : Headers) :
  (∀ k, k ∈ headers.*1 → toLowerCase k = k) →
  NoDup headers.*1 →
  Watcher.filterHeaders headers
  = List.filter (fun kv => bool_decide (kv.1 ∈ Watcher.allowed)) headers.
Proof.
  intros Hlow Hnd. unfold Watcher.filterHeaders.
  by rewrite filterHeaders_from_plain.
Qed.

Lemma filterHeaders_on_browser_headers_witness :
  Watcher.filterHeaders browser_headers
  = [("secret-id", "id-1"); ("secret-key", "key-1"); ("accept", "*/*")].
Proof.
  rewrite (filterHeaders_on_browser_headers browser_headers).
  - reflexivity.
  - intros k Hk. unfold browser_headers in Hk. simpl in Hk.
    rewrite !elem_of_cons, elem_of_nil in Hk.
    destruct Hk as [->|[->|[->|[->|[]]]]]; reflexivity.
  - refine (bool_decide_unpack _ _). by vm_compute.
Defined.

Lemma assoc_set_values (k v : string) (ps : Headers) :
  v ≠ "" → Forall (fun kv => kv.2 ≠ "") ps →
  Forall (fun kv => kv.2 ≠ "") (assoc_set k v ps).
Proof.
  intros Hv. induction 1 as [|[k0 v0] ps H0 Hps IH]; simpl.
  - by repeat constructor.
  - destruct (String.eqb k k0); by constructor.
Qed.

Lemma worker_filterHeaders_from filtered entries :
  Worker.filterHeaders_from filtered entries
  = Watcher.filterHeaders_from filtered
      (List.filter (fun kv => negb (String.eqb kv.2 "")) entries)
  ∧ (Forall (fun kv => kv.2 ≠ "") filtered →
     Forall (fun kv => kv.2 ≠ "") (Worker.filterHeaders_from filtered entries)).
Proof.
  revert filtered. induction entries as [|[key value] rest IH];
    intros filtered; [done|].
  cbn [Worker.filterHeaders_from List.filter snd].
  destruct (String.eqb_spec value "") as [->|Hne]; cbn [negb].
  - rewrite andb_false_r. apply IH.
  - rewrite andb_true_r. cbn [Watcher.filterHeaders_from].
    destruct (bool_decide (toLowerCase key ∈ Watcher.allowed)); [|apply IH].
    destruct (IH (assoc_set (toLowerCase key) value filtered)) as [-> Hv].
    split; [done|]. intros Hf. apply Hv. by apply assoc_set_values.
Qed.

(** X9: the worker's header filter is the monitor's filter applied to the
    headers with a non-empty value: no empty value is ever forwarded, and
    the two filters agree when no captured value is empty. *)
Theorem worker_filterHeaders_drops_empty_values (headers : Headers) :
  Worker.filterHeaders headers
  = Watcher.filterHeaders
      (List.filter (fun kv => negb (String.eqb kv.2 "")) headers)
  ∧ (∀ k v, (k, v) ∈ Worker.filterHeaders headers →
            v ≠ "" ∧ k ∈ Watcher.allowed)
  ∧ ((∀ k v, (k, v) ∈ headers → v ≠ "") →
     Worker.filterHeaders headers = Watcher.filterHeaders headers).
Proof.
  unfold Worker.filterHeaders.
  destruct (worker_filterHeaders_from [] headers) as [E Hv].
  split; [exact E|]. split.
  - intros k v Hin. split.
    + specialize (Hv (Forall_nil_2 _)). rewrite Forall_forall in Hv.
      apply (Hv (k, v) Hin).
    + rewrite E in Hin.
      destruct (filterHeaders_normalises
                  (List.filter (fun kv => negb (String.eqb kv.2 "")) headers))
        as (_ & Hall & _).
      apply Hall. apply list_elem_of_fmap. by exists (k, v).
  - intros Hne. rewrite E. f_equal. apply filter_all.
    intros [k v] Hin. apply negb_true_iff. apply String.eqb_neq.
    by apply (Hne k v).
Qed.

Lemma worker_filterHeaders_drops_empty_values_witness :
  Worker.filterHeaders browser_headers = Watcher.filterHeaders browser_headers.
Proof.
  destruct (worker_filterHeaders_drops_empty_values browser_headers)
    as (_ & _ & Hsame).
  apply Hsame. intros k v Hin. unfold browser_headers in Hin.
  rewrite !elem_of_cons, elem_of_nil in Hin.
  destruct Hin as [[= _ ->]|[[= _ ->]|[[= _ ->]|[[= _ ->]|[]]]]]; done.
Defined.

(** ** listen *)

Lemma listen_timeout c trace :
  listen c trace = None ↔ Forall (fun ev => is_api_response ev = false) trace.
Proof.
  revert c. induction trace as [|[url hs|url m] rest IH]; intros c; simpl.
  - split; [constructor|done].
  - rewrite IH. split; [by constructor|by intros [_ ?]%Forall_cons].
  - destruct (includes url targetFragment && String.eqb m "GET") eqn:E.
    + split; [done|]. intros [H _]%Forall_cons. simpl in H. congruence.
    + rewrite IH. split; [by constructor|by intros [_ ?]%Forall_cons].
Qed.

Lemma listen_quiet c quiet rest :
  Forall (fun ev => is_api_request ev = false ∧ is_api_response ev = false)
         quiet →
  listen c (quiet ++ rest) = listen c rest.
Proof.
  induction 1 as [|[url hs|url m] quiet [Hq Hr] _ IH]; simpl in *; [done|..].
  - by rewrite Hq.
  - by rewrite Hr.
Qed.

Lemma listen_found c trace r :
  listen c trace = Some r →
  ∃ pre resp post,
    trace = pre ++ resp :: post
    ∧ is_api_response resp = true
    ∧ Forall (fun ev => is_api_response ev = false) pre
    ∧ ((r = c ∧ Forall (fun ev => is_api_request ev = false) pre)
       ∨ ∃ p1 url hs p2,
           r = Some hs ∧ pre = p1 ++ NetRequest url hs :: p2
           ∧ includes url targetFragment = true
           ∧ Forall (fun ev => is_api_request ev = false) p2).
Proof.
  revert c. induction trace as [|[url hs|url m] rest IH]; intros c; simpl;
    [done|..].
  - intros H. destruct (IH _ H) as (pre & resp & post & -> & Hresp & Hpre & Hr).
    exists (NetRequest url hs :: pre), resp, post.
    split; [done|]. split; [done|]. split; [by constructor|].
    destruct Hr as [[-> Hq]|(p1 & u & h & p2 & -> & -> & Hu & Hq)].
    + destruct (includes url targetFragment) eqn:E.
      * right. exists [], url, hs, pre. done.
      * left. split; [done|]. by constructor.
    + right. exists (NetRequest url hs :: p1), u, h, p2. done.
  - destruct (includes url targetFragment && String.eqb m "GET") eqn:E.
    + intros [= <-]. exists [], (NetResponse url m), rest.
      split; [done|]. split; [done|]. split; [constructor|].
      left. split; [done|constructor].
    + intros H.
      destruct (IH _ H) as (pre & resp & post & -> & Hresp & Hpre & Hr).
      exists (NetResponse url m :: pre), resp, post.
      split; [done|]. split; [done|]. split; [by constructor|].
      destruct Hr as [[-> Hq]|(p1 & u & h & p2 & -> & -> & Hu & Hq)].
      * left. split; [done|]. by constructor.
      * right. exists (NetResponse url m :: p1), u, h, p2. done.
Qed.

Lemma listen_prefix c p1 rest :
  Forall (fun ev => is_api_response ev = false) p1 →
  ∃ c', listen c (p1 ++ rest) = listen c' rest.
Proof.
  intros Hp. revert c.
  induction Hp as [|[url hs|url m] p1 Hr _ IH]; intros c; simpl in *.
  - by exists c.
  - apply IH.
  - rewrite Hr. apply IH.
Qed.

Lemma listen_last_request c p1 url hs p2 resp post :
  Forall (fun ev => is_api_response ev = false) p1 →
  includes url targetFragment = true →
  Forall (fun ev => is_api_request ev = false ∧ is_api_response ev = false)
         p2 →
  is_api_response resp = true →
  listen c (p1 ++ NetRequest url hs :: p2 ++ resp :: post) = Some (Some hs).
Proof.
  intros Hp1 Hu Hp2 Hresp.
  destruct (listen_prefix c p1 (NetRequest url hs :: p2 ++ resp :: post) Hp1)
    as [c' ->].
  simpl. rewrite Hu, (listen_quiet _ p2) by done.
  destruct resp as [|u m]; [done|]. simpl in *. by rewrite Hresp.
Qed.

(** X10: the capture succeeds exactly when a GET answer from the transaction
    API arrives and a request to that API precedes it, and then returns
    the headers of the last such request before the first such answer;
    it reports a timeout exactly when no such answer arrives; none of its
    errors is classified as an authentication failure. *)
Theorem captureTransactionHeaders_takes_last_request
    (trace : list NetEvent) :
  (∀ hs,
     Watcher.captureTransactionHeaders trace = Ok hs ↔
     ∃ p1 url p2 resp post,
       trace = p1 ++ NetRequest url hs :: p2 ++ resp :: post
       ∧ includes url targetFragment = true
       ∧ is_api_response resp = true
       ∧ Forall (fun ev => is_api_response ev = false) p1
       ∧ Forall (fun ev => is_api_request ev = false
                           ∧ is_api_response ev = false) p2)
  ∧ (Forall (fun ev => is_api_response ev = false) trace ↔
     Watcher.captureTransactionHeaders trace
     = Throw (Error
         "Timed out capturing transaction headers. Reload /riwayatTransaksi manually to refresh."))
  ∧ (∀ e, Watcher.captureTransactionHeaders trace = Throw e →
          Watcher.shouldRelogin e = false).
Proof.
  unfold Watcher.captureTransactionHeaders. split; [|split].
  - intros hs. split.
    + destruct (listen None trace) as [[h|]|] eqn:E; [|done..].
      intros [= ->].
      destruct (listen_found _ _ _ E)
        as (pre & resp & post & -> & Hresp & Hpre & Hr).
      destruct Hr as [[[=] _]|(p1 & u & h & p2 & [= <-] & -> & Hu & Hq)].
      exists p1, u, p2, resp, post. rewrite <- app_assoc. simpl.
      apply Forall_app in Hpre as [Hp1 [_ Hp2]%Forall_cons].
      split; [done|]. split; [done|]. split; [done|]. split; [done|].
      rewrite Forall_forall in Hq, Hp2. apply Forall_forall.
      intros ev Hev. split; [by apply Hq|by apply Hp2].
    + intros (p1 & url & p2 & resp & post & -> & Hu & Hresp & Hp1 & Hp2).
      by rewrite (listen_last_request None p1 url hs p2 resp post).
  - rewrite <- (listen_timeout None trace).
    destruct (listen None trace) as [[h|]|]; split; done.
  - intros e. destruct (listen None trace) as [[h|]|]; [done|..];
      by intros [= <-].
Qed.

Lemma captureTransactionHeaders_takes_last_request_witness :
  Watcher.captureTransactionHeaders demo_trace = Ok demo_headers.
Proof.
  destruct (captureTransactionHeaders_takes_last_request demo_trace)
    as (Hok & _ & _).
  apply Hok.
  exists [ NetRequest (TRANSACTION_API_URL +:+ "?startDate=20251126")
             [("secret-id", "old")];
           NetResponse "https://qris.bankmandiri.co.id/static/app.js" "GET" ],
         (TRANSACTION_API_URL +:+ "?startDate=20251126"),
         [ NetRequest "https://qris.bankmandiri.co.id/static/logo.png" [] ],
         (NetResponse (TRANSACTION_API_URL +:+ "?startDate=20251126") "GET"),
         [ NetRequest (TRANSACTION_API_URL +:+ "?startDate=20251126")
             [("secret-id", "late")] ].
  split; [reflexivity|]. split; [by vm_compute|]. split; [by vm_compute|].
  split; repeat constructor; by vm_compute.
Defined.

(** X11: when the header set lacks the rotating token and the capture made by
    the refresh fails, the cycle issues no replay and no login: it logs
    the failure and ends with the header set and the table unchanged. *)
Theorem capture_failure_in_refresh_is_not_recovered
    `{JsBuiltins} `{SqlClock}
    (cfg : Config) (env : Watcher.CycleEnv) (w : Watcher.Watch)
    (trace : list NetEvent) (e : JsError) :
  has_header (Watcher.latestHeaders w) "secret-token" = false →
  Watcher.recapture env = Watcher.captureTransactionHeaders trace →
  Watcher.captureTransactionHeaders trace = Throw e →
  Watcher.poll_cycle cfg env w
  = ({| Watcher.polling := false;
        Watcher.lastRun := Watcher.lastRun w;
        Watcher.latestHeaders := Watcher.latestHeaders w;
        Watcher.db := Watcher.db w |},
     [EvCaptureHeaders; EvLogFailure e]).
Proof.
  intros Htok Hrec Hfail.
  assert (Hs : Watcher.shouldRelogin e = false).
  { revert Hfail. unfold Watcher.captureTransactionHeaders.
    destruct (listen None trace) as [[h|]|]; [done|..]; by intros [= <-]. }
  unfold Watcher.poll_cycle, Watcher.refreshHeadersIfNeeded.
  rewrite Htok, Hrec, Hfail. unfold Watcher.poll_catch. by rewrite Hs.
Qed.

Lemma capture_failure_in_refresh_is_not_recovered_witness :
  (Watcher.poll_cycle (H := demo_builtins) (H0 := demo_clock)
     default_config cycle_silent tokenless_watch).2
  = [EvCaptureHeaders;
     EvLogFailure (Error
       "Timed out capturing transaction headers. Reload /riwayatTransaksi manually to refresh.")].
Proof.
  rewrite (@capture_failure_in_refresh_is_not_recovered
             demo_builtins demo_clock default_config cycle_silent
             tokenless_watch []
             (Error
                "Timed out capturing transaction headers. Reload /riwayatTransaksi manually to refresh."));
    reflexivity.
Defined.

Lemma listen_captured hs trace r :
  listen (Some hs) trace = Some r → ∃ hs', r = Some hs'.
Proof.
  revert hs. induction trace as [|[url h|url m] rest IH]; intros hs; simpl;
    [done|..].
  - destruct (includes url targetFragment); apply IH.
  - destruct (includes url targetFragment && String.eqb m "GET").
    + intros [= <-]. by exists hs.
    + apply IH.
Qed.

Lemma listen_from_empty trace :
  listen (Some []) trace
  = (fun r => Some (default [] r)) <$> listen None trace.
Proof.
  induction trace as [|[url h|url m] rest IH]; simpl; [done|..].
  - destruct (includes url targetFragment); [|done].
    destruct (listen (Some h) rest) as [r|] eqn:E; [|done].
    by destruct (listen_captured _ _ _ E) as [hs' ->].
  - by destruct (includes url targetFragment && String.eqb m "GET").
Qed.

(** X12: the worker's capture succeeds exactly when the monitor's capture does
    and the captured set holds a non-empty rotating token; without an
    answer it throws the error of the wait, and with an answer but no
    token its own error. *)
Theorem captureApiHeaders_is_capture_with_token
    (waitError : JsError) (trace : list NetEvent) :
  (∀ hs,
     Worker.captureApiHeaders waitError trace = Ok hs ↔
     Watcher.captureTransactionHeaders trace = Ok hs
     ∧ has_header hs "secret-token" = true)
  ∧ (Forall (fun ev => is_api_response ev = false) trace →
     Worker.captureApiHeaders waitError trace = Throw waitError)
  ∧ (¬ Forall (fun ev => is_api_response ev = false) trace →
     (∀ hs, Watcher.captureTransactionHeaders trace = Ok hs →
            has_header hs "secret-token" = false) →
     Worker.captureApiHeaders waitError trace
     = Throw (Error "Failed to capture API headers")).
Proof.
  unfold Worker.captureApiHeaders, Watcher.captureTransactionHeaders.
  rewrite listen_from_empty, <- (listen_timeout None trace).
  destruct (listen None trace) as [[h|]|]; simpl.
  - split; [|split].
    + intros hs. destruct (has_header h "secret-token") eqn:Ht; simpl.
      * split; [by intros [= <-]|by intros [[= <-] _]].
      * split; [done|]. intros [[= <-] Hh]. congruence.
    + done.
    + intros _ Hno. by rewrite (Hno h eq_refl).
  - split; [|split]; [by split; [|intros [? _]]|done..].
  - split; [|split]; [by split; [|intros [? _]]|done|done].
Qed.

Lemma captureApiHeaders_is_capture_with_token_witness :
  Worker.captureApiHeaders timeout demo_trace = Ok demo_headers.
Proof.
  destruct (captureApiHeaders_is_capture_with_token timeout demo_trace)
    as (Hok & _ & _).
  apply Hok. split; reflexivity.
Defined.

Lemma status_lines_neutral (status : Z) :
  0 ≤ status ≤ 999 → status_line_is_neutral status = true.
Proof.
  intros Hs. apply (range_check status_line_is_neutral 0 (Z.to_nat 1000));
    [|lia].
  by vm_compute.
Qed.

(** X13: a replay that fails on an HTTP answer leads to a forced login exactly
    when the status is 401 or 403: the response body plays no part, and an
    answer that is not valid JSON never does. *)
Theorem replay_failure_is_classified_by_status `{JsBuiltins}
    (headers : Headers) (startDate endDate : string)
    (status : Z) (body : string) (e : JsError) :
  0 ≤ status ≤ 999 →
  (Watcher.fetchTransactions headers startDate endDate
     (HttpResponse status body)).2 = Throw e →
  (Watcher.shouldRelogin e = true ↔ status = 401 ∨ status = 403).
Proof.
  intros Hrange. unfold Watcher.fetchTransactions. cbn [snd].
  unfold Watcher.page_fetch. cbn [Watcher.ok Watcher.status Watcher.data
    Watcher.error Watcher.text].
  destruct (response_ok status) eqn:Hok; cbn [negb].
  - assert (status ≠ 401 ∧ status ≠ 403) as [H1 H3].
    { unfold response_ok in Hok. lia. }
    assert (Hmsg : Watcher.shouldRelogin
                     (Error "Transaction response is not valid JSON") = false)
      by done.
    destruct (JSON_parse body) as [[h payload]|].
    + destruct (truthy payload); [done|]. intros [= <-]. rewrite Hmsg.
      split; [done|lia].
    + intros [= <-]. rewrite Hmsg. split; [done|lia].
  - intros [= <-]. unfold Watcher.shouldRelogin.
    cbn [err_status err_message].
    pose proof (status_lines_neutral status Hrange) as Hn.
    unfold status_line_is_neutral in Hn. apply negb_true_iff in Hn.
    change (default "" None) with "".
    change (" " +:+ "") with " ".
    destruct (bool_decide (Some status = Some 401)) eqn:E1.
    { apply bool_decide_eq_true in E1 as [= ->]. simpl. tauto. }
    destruct (bool_decide (Some status = Some 403)) eqn:E3.
    { apply bool_decide_eq_true in E3 as [= ->]. simpl. tauto. }
    apply bool_decide_eq_false in E1, E3. cbn [orb]. rewrite Hn.
    split; [done|]. intros [->| ->]; done.
Qed.

Lemma replay_failure_is_classified_by_status_witness :
  Watcher.shouldRelogin
    {| err_status := Some 500;
       err_message := "Transaction fetch failed: HTTP 500 ";
       err_body := Some "please login again" |} = false.
Proof.
  destruct (@replay_failure_is_classified_by_status demo_builtins
              demo_headers "20251126" "20251126" 500 "please login again"
              {| err_status := Some 500;
                 err_message := "Transaction fetch failed: HTTP 500 ";
                 err_body := Some "please login again" |})
    as [Hauth _].
  - lia.
  - reflexivity.
  - destruct (Watcher.shouldRelogin _) eqn:E; [|reflexivity].
    destruct (Hauth eq_refl) as [Hs|Hs]; discriminate Hs.
Defined.

Section UpsertMore.
Context `{JsBuiltins} `{SqlClock}.

Lemma guard_negation h detail :
  negb (truthy detail) || negb (truthy (get h detail "reffNumber"))
  = negb (passes_guard h detail).
Proof. unfold passes_guard. by rewrite negb_andb. Qed.

Lemma upsert_statement_executed params db db' res :
  D1.upsert_statement params db = (db', res) →
  D1.executed db' = S (D1.executed db).
Proof.
  unfold D1.upsert_statement.
  repeat (destruct params as [|? params]; [by intros [= <- <-]|]).
  destruct params; [|by intros [= <- <-]].
  destruct v; try by intros [= <- <-].
  destruct (decide _); by intros [= <- <-].
Qed.

Lemma upsert_loop_count h details : ∀ stored db db' n,
  upsert_loop h details stored db = (db', Ok n) →
  n = (stored + List.length (List.filter (passes_guard h) details))%nat
  ∧ D1.executed db' = (D1.executed db + (n - stored))%nat.
Proof.
  induction details as [|detail rest IH]; intros stored db db' n.
  - intros [= <- <-]. simpl. split; lia.
  - cbn [upsert_loop List.filter]. rewrite guard_negation.
    destruct (passes_guard h detail); cbn [negb].
    + destruct (D1.upsert_statement _ db) as [db1 [[]|e]] eqn:Es; [|done].
      intros E. apply IH in E as [-> Hx].
      apply upsert_statement_executed in Es. simpl. split; lia.
    + apply IH.
Qed.

Lemma upsert_loop_all_skipped h details : ∀ stored db,
  Forall (fun d => passes_guard h d = false) details →
  upsert_loop h details stored db = (db, Ok stored).
Proof.
  induction details as [|detail rest IH]; intros stored db Hall; [done|].
  apply Forall_cons in Hall as [Hd Hall].
  cbn [upsert_loop]. rewrite guard_negation, Hd. by apply IH.
Qed.

Lemma upsert_loop_frame h details : ∀ stored db,
  Forall (valid_detail h) details →
  ∃ db' n,
    upsert_loop h details stored db = (db', Ok n)
    ∧ D1.executed db' = (D1.executed db + List.length details)%nat
    ∧ ∀ k, k ∉ (reff h <$> details) → D1.rows db' !! k = D1.rows db !! k.
Proof.
  induction details as [|detail rest IH]; intros stored db Hv.
  - exists db, stored. simpl. split; [done|]. split; [lia|done].
  - apply Forall_cons in Hv as [[key Hk] Hv].
    destruct (upsert_loop_step h detail rest stored db key Hk)
      as (r & -> & _).
    destruct (IH (S stored) {| D1.rows := <[key := r]> (D1.rows db);
                               D1.executed := S (D1.executed db) |} Hv)
      as (db' & n & E & Hx & Hframe).
    exists db', n. split; [done|]. simpl in *. split; [lia|].
    intros k Hnk. rewrite (has_reff_reff _ _ _ Hk) in Hnk.
    apply not_elem_of_cons in Hnk as [Hne Hnk].
    rewrite (Hframe k Hnk). by rewrite lookup_insert_ne.
Qed.

Lemma upsert_loop_last_wins h details : ∀ stored db (i : nat) d,
  Forall (valid_detail h) details →
  details !! i = Some d →
  (∀ (j : nat) d', (i < j)%nat → details !! j = Some d' →
                   reff h d' ≠ reff h d) →
  ∃ db' n r,
    upsert_loop h details stored db = (db', Ok n)
    ∧ D1.rows db' !! reff h d = Some r
    ∧ row_columns r = tail (mapDetailToColumns h d)
    ∧ D1.updated_at r = CURRENT_TIMESTAMP (D1.executed db + i)%nat.
Proof.
  induction details as [|detail rest IH]; intros stored db i d Hv Hi Hlast.
  { by rewrite lookup_nil in Hi. }
  apply Forall_cons in Hv as [[key Hk] Hv].
  destruct (upsert_loop_step h detail rest stored db key Hk)
    as (r & -> & Hc & Hu & _).
  destruct i as [|i]; simpl in Hi.
  - injection Hi as <-.
    destruct (upsert_loop_frame h rest (S stored)
                {| D1.rows := <[key := r]> (D1.rows db);
                   D1.executed := S (D1.executed db) |} Hv)
      as (db' & n & E & _ & Hframe).
    exists db', n, r. split; [done|]. rewrite (has_reff_reff _ _ _ Hk).
    split; [|split; [done|by rewrite Nat.add_0_r]].
    rewrite Hframe; [simpl; by rewrite lookup_insert_eq|].
    intros (d' & Hd' & Hin)%list_elem_of_fmap.
    apply list_elem_of_lookup in Hin as [j Hj].
    apply (Hlast (S j) d'); [lia|done|].
    by rewrite <- Hd', (has_reff_reff _ _ _ Hk).
  - destruct (IH (S stored) {| D1.rows := <[key := r]> (D1.rows db);
                               D1.executed := S (D1.executed db) |} i d Hv Hi)
      as (db' & n & r' & E & Hl & Hc' & Hu').
    { intros j d' Hij Hj. apply (Hlast (S j) d'); [lia|done]. }
    exists db', n, r'. split; [done|]. split; [done|]. split; [done|].
    simpl in Hu'. rewrite Hu'. f_equal. lia.
Qed.

End UpsertMore.

(** X14: a completed upsert returns the number of records that carry a truthy
    reference number, which is the number of statements it executed;
    records without one are skipped silently, and a batch of such records
    leaves the table as it was. *)
Theorem upsert_counts_the_records_it_stores `{JsBuiltins} `{SqlClock}
    (h : heap) (details : list Val) (db : D1.Db) :
  (∀ db' n,
     Worker.upsertTransactions h details db = (db', Ok n) →
     Watcher.persistDetails h details db = (db', Ok n)
     ∧ n = List.length (List.filter (passes_guard h) details)
     ∧ (n ≤ List.length details)%nat
     ∧ D1.executed db' = (D1.executed db + n)%nat)
  ∧ (Forall (fun d => passes_guard h d = false) details →
     Worker.upsertTransactions h details db = (db, Ok 0%nat)).
Proof.
  split.
  - intros db' n E. split; [exact E|].
    destruct (upsert_loop_count h details 0%nat db db' n E) as [-> Hx].
    simpl in *. split; [done|]. split; [apply List.filter_length_le|lia].
  - apply upsert_loop_all_skipped.
Qed.

Lemma upsert_counts_the_records_it_stores_witness :
  (Worker.upsertTransactions (H := demo_builtins) (H0 := demo_clock)
     demo_heap [VRef 1; VUndefined; VRef 9; VRef 4] D1.empty).2
  = Ok 2%nat.
Proof.
  destruct (@upsert_counts_the_records_it_stores demo_builtins demo_clock
              demo_heap [VRef 1; VUndefined; VRef 9; VRef 4] D1.empty)
    as [Hcount _].
  destruct (Worker.upsertTransactions (H := demo_builtins) (H0 := demo_clock)
              demo_heap [VRef 1; VUndefined; VRef 9; VRef 4] D1.empty)
    as [db' res] eqn:E.
  assert (res = Ok 2%nat) as -> by (by vm_compute in E; injection E as _ <-).
  destruct (Hcount db' 2%nat eq_refl) as (_ & _ & _ & _). reflexivity.
Defined.

(** X15: when several records of one batch share a reference number, the
    stored row holds the values of the last of them and the timestamp of
    its statement. *)
Theorem upsert_last_occurrence_wins `{JsBuiltins} `{SqlClock}
    (h : heap) (details : list Val) (db : D1.Db) (i : nat) (d : Val) :
  Forall (valid_detail h) details →
  details !! i = Some d →
  (∀ (j : nat) d', (i < j)%nat → details !! j = Some d' →
                   reff h d' ≠ reff h d) →
  ∃ db' n r,
    Worker.upsertTransactions h details db = (db', Ok n)
    ∧ Watcher.persistDetails h details db = (db', Ok n)
    ∧ D1.rows db' !! reff h d = Some r
    ∧ row_columns r = tail (mapDetailToColumns h d)
    ∧ D1.updated_at r = CURRENT_TIMESTAMP (D1.executed db + i)%nat.
Proof.
  intros Hv Hi Hlast.
  destruct (upsert_loop_last_wins h details 0%nat db i d Hv Hi Hlast)
    as (db' & n & r & E & Hl & Hc & Hu).
  by exists db', n, r.
Qed.

Lemma upsert_last_occurrence_wins_witness :
  ∃ db' n r,
    Worker.upsertTransactions (H := demo_builtins) (H0 := demo_clock)
      demo_heap [VRef 2; VRef 3] D1.empty = (db', Ok n)
    ∧ D1.rows db' !! "TX2" = Some r
    ∧ D1.customer_name r = VString "JOHN DOE"
    ∧ D1.updated_at r = 1001.
Proof.
  destruct (@upsert_last_occurrence_wins demo_builtins demo_clock demo_heap
              [VRef 2; VRef 3] D1.empty 1%nat (VRef 3))
    as (db' & n & r & E & _ & Hl & Hc & Hu).
  - repeat constructor.
    + by apply (demo_valid 2 "TX2").
    + by apply (demo_valid 3 "TX2").
  - reflexivity.
  - intros [|[|[|j]]] d' Hlt Hj; try lia; discriminate Hj.
  - exists db', n, r. split; [exact E|]. split; [exact Hl|].
    split; [by injection Hc|exact Hu].
Defined.

(** X16: upserting the same batch a second time leaves the number of rows,
    the mutable columns and the created-at value of every row as they
    were after the first time. *)
Theorem upsert_again_changes_only_updated_at `{JsBuiltins} `{SqlClock}
    (h : heap) (details : list Val) (db : D1.Db) :
  Forall (valid_detail h) details →
  NoDup (reff h <$> details) →
  let db1 := (Worker.upsertTransactions h details db).1 in
  let db2 := (Worker.upsertTransactions h details db1).1 in
  D1.count_rows db2 = D1.count_rows db1
  ∧ ∀ k r1, D1.rows db1 !! k = Some r1 →
            ∃ r2, D1.rows db2 !! k = Some r2
                  ∧ row_columns r2 = row_columns r1
                  ∧ D1.created_at r2 = D1.created_at r1.
Proof.
  intros Hv Hnd db1 db2. subst db1 db2. unfold Worker.upsertTransactions.
  destruct (upsert_loop_dom h details 0%nat db Hv) as (db1 & E1 & _ & D1).
  destruct (upsert_loop_rows h details 0%nat db Hv Hnd)
    as (db1' & n1 & E1' & _ & Hrows1).
  rewrite E1 in E1'. injection E1' as <- _.
  rewrite E1. cbn [fst].
  destruct (upsert_loop_dom h details 0%nat db1 Hv) as (db2 & E2 & _ & D2).
  destruct (upsert_loop_rows h details 0%nat db1 Hv Hnd)
    as (db2' & n2 & E2' & Hframe2 & Hrows2).
  rewrite E2 in E2'. injection E2' as <- _.
  rewrite E2. cbn [fst]. split.
  - unfold D1.count_rows. rewrite <- !size_dom, D2, D1. f_equal. set_solver.
  - intros k r1 Hk.
    destruct (decide (k ∈ reff h <$> details)) as [Hin|Hnin].
    + apply list_elem_of_fmap in Hin as (d & -> & Hd).
      apply list_elem_of_lookup in Hd as [i Hi].
      destruct (Hrows1 i d Hi) as (r1' & Hl1 & Hc1 & _).
      rewrite Hk in Hl1. injection Hl1 as <-.
      destruct (Hrows2 i d Hi) as (r2 & Hl2 & Hc2 & _ & Hcr2).
      rewrite Hk in Hcr2.
      exists r2. split; [done|]. split; [by rewrite Hc2, Hc1|done].
    + exists r1. split; [by rewrite Hframe2|done].
Qed.

Lemma upsert_again_changes_only_updated_at_witness :
  D1.count_rows
    (Worker.upsertTransactions (H := demo_builtins) (H0 := demo_clock)
       demo_heap [VRef 1; VRef 2]
       (Worker.upsertTransactions (H := demo_builtins) (H0 := demo_clock)
          demo_heap [VRef 1; VRef 2] D1.empty).1).1
  = D1.count_rows
      (Worker.upsertTransactions (H := demo_builtins) (H0 := demo_clock)
         demo_heap [VRef 1; VRef 2] D1.empty).1.
Proof.
  destruct (@upsert_again_changes_only_updated_at demo_builtins demo_clock
              demo_heap [VRef 1; VRef 2] D1.empty) as [Hcount _].
  - repeat constructor.
    + by apply (demo_valid 1 "TX1").
    + by apply (demo_valid 2 "TX2").
  - refine (bool_decide_unpack _ _). by vm_compute.
  - exact Hcount.
Defined.

(** X17: for every record that passes the guard, exactly twenty values are
    bound and none of them is [undefined]. *)
Theorem bound_parameters_are_never_undefined `{JsBuiltins}
    (h : heap) (detail : Val) :
  passes_guard h detail = true →
  List.length (mapDetailToColumns h detail) = 20%nat
  ∧ Forall (fun p => p ≠ VUndefined) (mapDetailToColumns h detail).
Proof.
  intros Hg. split; [done|].
  apply andb_true_iff in Hg as [_ Hr].
  assert (Hn : ∀ v, nullish v VNull ≠ VUndefined) by (by intros []).
  assert (Ht : ∀ v, toNumber h v ≠ VUndefined).
  { intros []; simpl; try done. by destruct (String.eqb _ _). }
  unfold mapDetailToColumns.
  repeat (apply Forall_cons; split); try apply Hn; try apply Ht;
    try done.
  - intros E. rewrite E in Hr. discriminate Hr.
  - by rewrite booleanToInt_cases.
Qed.

Lemma bound_parameters_are_never_undefined_witness :
  Forall (fun p => p ≠ VUndefined)
    (mapDetailToColumns (H := demo_builtins) demo_heap (VRef 1)).
Proof.
  destruct (@bound_parameters_are_never_undefined demo_builtins demo_heap
              (VRef 1)) as [_ Hall].
  - reflexivity.
  - exact Hall.
Defined.

Lemma route_transaction_path (method k : string) :
  method ≠ "OPTIONS" →
  Worker.route method ("/api/transaction/" +:+ k) = Worker.RGetTransaction k.
Proof.
  intros Hm. unfold Worker.route.
  destruct (String.eqb_spec method "OPTIONS"); [done|].
  reflexivity.
Qed.

(** X18: after a batch of valid records is stored, a request for
    /api/transaction/<reference number> is dispatched to the point lookup
    and answered with the row holding that record's values; a reference
    number neither stored before nor in the batch is answered with not
    found, an empty one with a bad request, and the row count is the
    number of distinct reference numbers. *)
Theorem stored_record_is_served_by_reference `{JsBuiltins} `{SqlClock}
    (h : heap) (details : list Val) (db : D1.Db) (method : string) :
  Forall (valid_detail h) details →
  NoDup (reff h <$> details) →
  method ≠ "OPTIONS" →
  let db' := (Worker.upsertTransactions h details db).1 in
  (∀ d, d ∈ details →
     Worker.route method ("/api/transaction/" +:+ reff h d)
     = Worker.RGetTransaction (reff h d)
     ∧ ∃ r, Worker.handleGetTransaction (reff h d) db' = Worker.GetFound r
            ∧ row_columns r = tail (mapDetailToColumns h d))
  ∧ (∀ k, k ≠ "" → k ∉ (reff h <$> details) → D1.rows db !! k = None →
          Worker.handleGetTransaction k db' = Worker.GetNotFound)
  ∧ Worker.handleGetTransaction "" db' = Worker.GetBadRequest
  ∧ Worker.getTransactionCount db'
    = size (dom (D1.rows db) ∪ list_to_set (reff h <$> details)).
Proof.
  intros Hv Hnd Hm db'. subst db'. unfold Worker.upsertTransactions.
  destruct (upsert_loop_dom h details 0%nat db Hv) as (db1 & E1 & _ & D1).
  destruct (upsert_loop_rows h details 0%nat db Hv Hnd)
    as (db1' & n1 & E1' & Hframe & Hrows).
  rewrite E1 in E1'. injection E1' as <- _. rewrite E1. cbn [fst].
  split; [|split; [|split]].
  - intros d Hd. split; [by apply route_transaction_path|].
    apply list_elem_of_lookup in Hd as [i Hi].
    destruct (Hrows i d Hi) as (r & Hl & Hc & _).
    exists r. split; [|done]. unfold Worker.handleGetTransaction.
    assert (reff h d ≠ "") as Hne.
    { rewrite Forall_forall in Hv.
      destruct (Hv d) as (key & Hk); [by eapply list_elem_of_lookup_2|].
      rewrite (has_reff_reff _ _ _ Hk). by destruct Hk. }
    destruct (String.eqb_spec (reff h d) ""); [done|]. by rewrite Hl.
  - intros k Hne Hnin Hnone. unfold Worker.handleGetTransaction.
    destruct (String.eqb_spec k ""); [done|].
    by rewrite (Hframe k Hnin), Hnone.
  - done.
  - unfold Worker.getTransactionCount, D1.count_rows.
    by rewrite <- size_dom, D1.
Qed.

Lemma stored_record_is_served_by_reference_witness :
  Worker.route "GET" "/api/transaction/TX1" = Worker.RGetTransaction "TX1"
  ∧ ∃ r,
      Worker.handleGetTransaction "TX1"
        (Worker.upsertTransactions (H := demo_builtins) (H0 := demo_clock)
           demo_heap [VRef 1; VRef 2] D1.empty).1
      = Worker.GetFound r
      ∧ D1.auth_amount_number r = VNumber (Num 50000).
Proof.
  destruct (@stored_record_is_served_by_reference demo_builtins demo_clock
              demo_heap [VRef 1; VRef 2] D1.empty "GET")
    as (Hserved & _ & _ & _).
  - repeat constructor.
    + by apply (demo_valid 1 "TX1").
    + by apply (demo_valid 2 "TX2").
  - refine (bool_decide_unpack _ _). by vm_compute.
  - discriminate.
  - destruct (Hserved (VRef 1)) as (Hroute & r & Hget & Hc).
    + apply list_elem_of_here.
    + split; [exact Hroute|]. exists r. split; [exact Hget|].
      by injection Hc.
Defined.

Section PollMore.
Context `{JsBuiltins} `{SqlClock}.
Variable cfg : Config.

Lemma poll_cycle_keeps_lastRun env w :
  Watcher.lastRun (Watcher.poll_cycle cfg env w).1 = Watcher.lastRun w.
Proof.
  unfold Watcher.poll_cycle.
  destruct (Watcher.refreshHeadersIfNeeded _ _) as [evs1 [hs|e]].
  - destruct (Watcher.fetchAndStore _ _ _) as [[d evs2] [[]|e]]; [done|].
    by destruct (Watcher.poll_catch _ _ _ _).
  - by destruct (Watcher.poll_catch _ _ _ _).
Qed.

End PollMore.

(** X19: a cycle that starts at [now] ends, whatever its outcome, with the flag
    lowered and the time of the last run set to [now], so every
    invocation earlier than the poll interval minus one second after
    [now] is skipped. *)
Theorem finished_cycle_is_not_retried_early `{JsBuiltins} `{SqlClock}
    (cfg : Config) (now : Z) (env : Watcher.CycleEnv) (w : Watcher.Watch) :
  Watcher.polling w = false →
  pollIntervalMs cfg - 1000 ≤ now - Watcher.lastRun w →
  let w' := (Watcher.poll cfg now env w).1 in
  Watcher.polling w' = false
  ∧ Watcher.lastRun w' = now
  ∧ ∀ now' env',
      now' - now < pollIntervalMs cfg - 1000 →
      Watcher.poll cfg now' env' w' = (w', []).
Proof.
  intros Hidle Hdue w'.
  assert (Hstart : Watcher.poll cfg now env w
                   = Watcher.poll_cycle cfg env
                       {| Watcher.polling := true; Watcher.lastRun := now;
                          Watcher.latestHeaders := Watcher.latestHeaders w;
                          Watcher.db := Watcher.db w |}).
  { unfold Watcher.poll, Watcher.poll_enter. rewrite Hidle.
    by destruct (Z.ltb_spec (now - Watcher.lastRun w)
                   (pollIntervalMs cfg - 1000)); [lia|]. }
  subst w'. rewrite Hstart.
  rewrite poll_cycle_lowers_flag, poll_cycle_keeps_lastRun.
  split; [done|]. split; [done|].
  intros now' env' Hearly. unfold Watcher.poll.
  rewrite poll_enter_skips; [done|]. right.
  by rewrite poll_cycle_keeps_lastRun.
Qed.

Lemma finished_cycle_is_not_retried_early_witness :
  Watcher.poll (H := demo_builtins) (H0 := demo_clock)
    default_config 1700000200000 cycle_unauthorized
    (Watcher.poll (H := demo_builtins) (H0 := demo_clock)
       default_config 1700000000000 cycle_unauthorized idle_watch).1
  = ((Watcher.poll (H := demo_builtins) (H0 := demo_clock)
        default_config 1700000000000 cycle_unauthorized idle_watch).1, []).
Proof.
  destruct (@finished_cycle_is_not_retried_early demo_builtins demo_clock
              default_config 1700000000000 cycle_unauthorized idle_watch)
    as (_ & _ & Hskip).
  - reflexivity.
  - simpl. lia.
  - apply Hskip. simpl. lia.
Defined.

(** X20: in a cycle whose refresh and replay succeed and whose records are
    valid, the effects are the optional capture, then the one request,
    then the upsert of all collected records (none when nothing was
    collected); no login is started, the header set is the refreshed one,
    and the table gains exactly the collected reference numbers. *)
Theorem successful_cycle_stores_in_order `{JsBuiltins} `{SqlClock}
    (cfg : Config) (env : Watcher.CycleEnv) (w : Watcher.Watch)
    (headers : Headers) (h : heap) (payload : Val) (ds : list Val) :
  (Watcher.refreshHeadersIfNeeded env (Watcher.latestHeaders w)).2
  = Ok headers →
  (Watcher.fetchTransactions headers (Watcher.today env) (Watcher.today env)
     (Watcher.response env)).2 = Ok (h, payload) →
  Watcher.collectDetailRecords h payload = Some ds →
  Forall (valid_detail h) ds →
  let w' := (Watcher.poll_cycle cfg env w).1 in
  let evs := (Watcher.poll_cycle cfg env w).2 in
  let request :=
    EvRequest TRANSACTION_API_URL (Watcher.today env) (Watcher.today env)
      (Watcher.filterHeaders headers) in
  Watcher.polling w' = false
  ∧ Watcher.latestHeaders w' = headers
  ∧ login_attempts evs = 0%nat
  ∧ dom (D1.rows (Watcher.db w'))
    = dom (D1.rows (Watcher.db w)) ∪ list_to_set (reff h <$> ds)
  ∧ evs = (Watcher.refreshHeadersIfNeeded env (Watcher.latestHeaders w)).1
          ++ request
             :: (if (List.length ds =? 0)%nat then []
                 else [EvUpsert (List.length ds)]).
Proof.
  intros Hr Hf Hc Hv w' evs request. subst w' evs request.
  pose proof (refresh_no_login env (Watcher.latestHeaders w)) as Hn.
  unfold Watcher.poll_cycle, Watcher.fetchAndStore.
  rewrite (surjective_pairing (Watcher.refreshHeadersIfNeeded _ _)), Hr.
  rewrite (surjective_pairing (Watcher.fetchTransactions _ _ _ _)), Hf.
  rewrite fetch_one_request, Hc. change (default [] (Some ds)) with ds.
  destruct (List.length ds =? 0)%nat eqn:Hlen.
  - apply Nat.eqb_eq in Hlen. destruct ds; [|done]. cbn [fst snd].
    split; [done|]. split; [done|].
    split; [by rewrite login_attempts_app, Hn|].
    split; [simpl; set_solver|done].
  - unfold Watcher.persistDetails.
    destruct (upsert_loop_dom h ds 0%nat (Watcher.db w) Hv)
      as (db' & -> & _ & D). cbn [fst snd].
    split; [done|]. split; [done|].
    split; [by rewrite !login_attempts_app, Hn|]. split; [done|done].
Qed.

Lemma successful_cycle_stores_in_order_witness :
  (Watcher.poll_cycle (H := tree_builtins) (H0 := demo_clock)
     default_config cycle_ok idle_watch).2
  = [EvRequest TRANSACTION_API_URL "20251126" "20251126" demo_headers;
     EvUpsert 1].
Proof.
  destruct (@successful_cycle_stores_in_order tree_builtins demo_clock
              default_config cycle_ok idle_watch demo_headers tree_heap
              (VRef 1) [VRef 5])
    as (_ & _ & _ & _ & Hevs).
  - reflexivity.
  - reflexivity.
  - by vm_compute.
  - repeat constructor. exists "TX1". split; [reflexivity|discriminate].
  - rewrite Hevs. reflexivity.
Defined.

(** X21: the extractor returns exactly the detail objects of the nodes that
    can be reached from the payload, in both variants: a value is
    returned iff some reachable node holds it under "detail" and it is a
    non-null object. *)
Theorem extractor_collects_reachable_details (h : heap) (payload : Val) :
  ∃ ds,
    Watcher.collectDetailRecords h payload = Some ds
    ∧ Worker.extractTransactionDetails h payload = Some ds
    ∧ (∀ d, d ∈ ds ↔
            ∃ l, reachable_from h payload l
                 ∧ get h (VRef l) "detail" = d
                 ∧ Watcher.is_detail d = true)
    ∧ (∀ d, d ∈ ds → ∃ l, d = VRef l).
Proof.
  destruct (walk_total Watcher.is_detail h (S (size h)) payload
              {| visited := ∅; details := [] |}) as (st' & o & E & X).
  { unfold unvisited. simpl. rewrite difference_empty_L, size_dom. lia. }
  pose proof (visited_is_reachable Watcher.is_detail h payload st' E) as Hvis.
  destruct X as (V & D & _ & _). simpl in V, D.
  assert (Hmem : ∀ d, d ∈ details st' ↔
            ∃ l, reachable_from h payload l
                 ∧ get h (VRef l) "detail" = d
                 ∧ Watcher.is_detail d = true).
  { intros d. rewrite D, list_elem_of_omap. split.
    - intros (l & Hl & Hd). exists l. split.
      + apply Hvis. rewrite V. set_solver.
      + unfold detail_of in Hd.
        destruct (Watcher.is_detail (get h (VRef l) "detail")) eqn:Hi;
          [|done].
        injection Hd as <-. done.
    - intros (l & Hl & <- & Hi). exists l. split.
      + apply Hvis in Hl. rewrite V in Hl. set_solver.
      + unfold detail_of. by rewrite Hi. }
  exists (details st'). split; [|split; [|split]].
  - unfold Watcher.collectDetailRecords, walk_all. by rewrite E.
  - unfold Worker.extractTransactionDetails, walk_all.
    rewrite <- (walk_ext _ _ h is_detail_agree). by rewrite E.
  - exact Hmem.
  - intros d (l & _ & _ & Hi)%Hmem. unfold Watcher.is_detail in Hi.
    apply andb_true_iff in Hi as [[Ht Ho]%andb_true_iff _].
    destruct d; try discriminate Ho; try discriminate Ht. by eexists.
Qed.

Lemma extractor_collects_reachable_details_witness :
  ∃ ds, Watcher.collectDetailRecords tree_heap (VRef 1) = Some ds
        ∧ VRef 5 ∈ ds.
Proof.
  destruct (extractor_collects_reachable_details tree_heap (VRef 1))
    as (ds & E & _ & Hmem & _).
  exists ds. split; [exact E|]. apply Hmem. exists 4%nat.
  split; [|split; reflexivity].
  apply (reachable_child _ _ 3%nat); [|by vm_compute; apply list_elem_of_here].
  apply (reachable_child _ _ 2%nat); [|by vm_compute; apply list_elem_of_here].
  apply (reachable_child _ _ 1%nat); [|by vm_compute; apply list_elem_of_here].
  by apply reachable_root.
Defined.

Lemma querySelector_input_children tag id kids :
  querySelector_input (Element tag id kids) = first_within kids.
Proof.
  simpl. induction kids as [|k ks IH]; [done|].
  cbn [first_within]. unfold withinParent at 1.
  destruct (is_input k); [done|].
  destruct (querySelector_input k); [done|]. exact IH.
Qed.

Lemma querySelector_input_is_input :
  ∀ e found, querySelector_input e = Some found → is_input found = true.
Proof.
  fix IH 1. intros [tag id kids]. simpl.
  induction kids as [|k ks IHks]; intros found; [done|].
  destruct (is_input k) eqn:Hk; [by intros [= <-]|].
  destruct (querySelector_input k) as [f|] eqn:Hq.
  - intros [= <-]. by apply (IH k).
  - apply IHks.
Qed.

Lemma withinParent_is_input e found :
  withinParent e = Some found → is_input found = true.
Proof.
  unfold withinParent. destruct (is_input e) eqn:He.
  - by intros [= <-].
  - apply querySelector_input_is_input.
Qed.

Lemma first_within_is_input l found :
  first_within l = Some found → is_input found = true.
Proof.
  induction l as [|e l IH]; [done|]. simpl.
  destruct (withinParent e) as [f|] eqn:E; [|done].
  intros [= <-]. by eapply withinParent_is_input.
Qed.

Lemma first_within_None l :
  first_within l = None ↔ Forall (fun e => withinParent e = None) l.
Proof.
  induction l as [|e l IH]; simpl.
  { split; intros ?; [apply Forall_nil_2|reflexivity]. }
  destruct (withinParent e) eqn:E.
  - split; [done|]. intros [Hn _]%Forall_cons. congruence.
  - rewrite IH. split; [by constructor|by intros [_ ?]%Forall_cons].
Qed.

Lemma Forall_rev_iff {A : Type} (P : A → Prop) (l : list A) :
  Forall P (rev l) ↔ Forall P l.
Proof.
  split; intros Hl.
  - rewrite <- (rev_involutive l). by apply List.Forall_rev.
  - by apply List.Forall_rev.
Qed.

Lemma parent_without_input (site : LabelSite) parent :
  parentElement site = Some parent → withinParent parent = None →
  first_within (previousSiblings site) = None
  ∧ first_within (nextSiblings site) = None.
Proof.
  unfold parentElement. destruct (parentTag site) as [[tag id]|]; [|done].
  intros [= <-]. unfold withinParent.
  destruct (is_input _); [done|].
  rewrite querySelector_input_children, !first_within_None.
  rewrite Forall_app, Forall_cons, Forall_rev_iff. tauto.
Qed.

(** X22: when the label has no associated control, whatever either variant of
    the label resolution returns is an input element; the two variants
    find an element in the same situations and the same element unless
    both sides of the label hold an input; with a parent present the
    resolution fails only if the label has no control and the parent
    neither is nor contains an input. *)
Theorem label_resolution_finds_inputs (site : LabelSite) :
  (control site = None →
   ∀ e, Watcher.resolve_input site = Some e ∨ Worker.resolve_input site = Some e →
        is_input e = true)
  ∧ (is_Some (Watcher.resolve_input site)
     ↔ is_Some (Worker.resolve_input site))
  ∧ (first_within (previousSiblings site) = None
     ∨ first_within (nextSiblings site) = None →
     Watcher.resolve_input site = Worker.resolve_input site)
  ∧ (∀ parent, parentElement site = Some parent →
       (Watcher.resolve_input site = None
        ↔ control site = None ∧ withinParent parent = None)).
Proof.
  unfold Watcher.resolve_input, Worker.resolve_input.
  split; [|split; [|split]].
  - intros -> e.
    destruct (first_within (previousSiblings site)) as [p|] eqn:Ep;
      destruct (first_within (nextSiblings site)) as [n|] eqn:En;
      (destruct (parentElement site) as [parent|] eqn:Epar;
       [destruct (withinParent parent) as [q|] eqn:Eq|]);
      intros [He|He]; try discriminate He; injection He as <-;
      first [ by eapply first_within_is_input
            | by eapply withinParent_is_input ].
  - destruct (control site); [done|].
    destruct (first_within (previousSiblings site)),
             (first_within (nextSiblings site));
      try done; split; intros _; by eexists.
  - destruct (control site); [done|].
    intros [-> | ->]; [done|].
    by destruct (first_within (previousSiblings site)).
  - intros parent Hp. rewrite Hp.
    destruct (control site); [by split; [|intros [? _]]|].
    split.
    + destruct (first_within (previousSiblings site)); [done|].
      by destruct (first_within (nextSiblings site)).
    + intros [_ Hnone].
      destruct (parent_without_input site parent Hp Hnone) as [-> ->]. done.
Qed.

Lemma label_resolution_finds_inputs_witness :
  Watcher.resolve_input demo_site = Some (Element "INPUT" 4 [])
  ∧ Worker.resolve_input demo_site = Some (Element "INPUT" 4 []).
Proof.
  destruct (label_resolution_finds_inputs demo_site) as (_ & _ & Hsame & _).
  rewrite <- Hsame; [split; reflexivity|]. left. reflexivity.
Defined.


